(** * Minesweeper knowledge engine: a shallow embedding of [minesweeper.py]

    The development follows the Python source class by class.  Python
    integers are [Z]; a board cell is a pair of integers; a Python [set] of
    cells is a [gset Cell]; the knowledge base, a Python [list] of
    [Sentence] objects mutated in place, is a [list Sentence.t] that is
    threaded through every method.  A mutating method returns the updated
    object; a query returns its result paired with the object as the call
    leaves it, so that "this query does not modify the object" is a
    statement about the model and not a consequence of a type. *)

From Stdlib Require Import ZArith Lia.
From stdpp Require Import base option list sets gmap.

(** ** Cells and Python's [range] *)

Abbreviation Cell := (Z * Z)%type.

(** [range(a, b)]: the integers [a], [a+1], ..., [b-1]; empty when [b <= a]. *)
Definition range (a b : Z) : list Z := seqZ a (b - a).

(** A [for] loop whose body may [return]: the first iteration that returns
    decides the result, and falling off the end gives [None]. *)
Fixpoint first_some {A B : Type} (f : A → option B) (l : list A) : option B :=
  match l with
  | [] => None
  | x :: l' => match f x with
               | Some y => Some y
               | None => first_some f l'
               end
  end.

(** ** class Sentence *)

Module Sentence.

Record t : Type := Build { cells : gset Cell; count : Z }.

(** [__init__]: [self.cells = set(cells)], [self.count = count].  The
    argument is copied into a fresh set; callers that hold a list convert
    it with [list_to_set]. *)
Definition init (cs : gset Cell) (n : Z) : t := Build cs n.

(** [__eq__]: same cells and same count. *)
Definition eqb (self other : t) : bool :=
  bool_decide (cells self = cells other) && bool_decide (count self = count other).

(** [len(self.cells)] as a Python integer. *)
Definition len_cells (self : t) : Z := Z.of_nat (size (cells self)).

(** [known_mines]: [self.cells.copy()] when [count == len(cells)], else [set()]. *)
Definition known_mines (self : t) : gset Cell * t :=
  if bool_decide (count self = len_cells self) then (cells self, self) else (∅, self).

(** [known_safes]: [self.cells.copy()] when [count == 0], else [set()]. *)
Definition known_safes (self : t) : gset Cell * t :=
  if bool_decide (count self = 0%Z) then (cells self, self) else (∅, self).

(** [mark_mine]: when the cell is a member, remove it and decrement the count. *)
Definition mark_mine (self : t) (cell : Cell) : t :=
  if bool_decide (cell ∈ cells self)
  then Build (cells self ∖ {[cell]}) (count self - 1)
  else self.

(** [mark_safe]: when the cell is a member, remove it; the count stays. *)
Definition mark_safe (self : t) (cell : Cell) : t :=
  if bool_decide (cell ∈ cells self)
  then Build (cells self ∖ {[cell]}) (count self)
  else self.

(** [x in l] on a list of sentences compares with [__eq__]. *)
Definition contains (x : t) (l : list t) : bool := existsb (eqb x) l.

End Sentence.

(** Sentences are compared structurally. *)
Global Instance sentence_eq_dec : EqDecision Sentence.t.
Proof. solve_decision. Defined.

(** ** class MinesweeperAI *)

Module MinesweeperAI.

Record t : Type := Build {
  height : Z;
  width : Z;
  moves_made : gset Cell;
  mines : gset Cell;
  safes : gset Cell;
  knowledge : list Sentence.t
}.

(** Assignments to one attribute of [self]. *)
Definition set_moves_made (v : gset Cell) (self : t) : t :=
  Build (height self) (width self) v (mines self) (safes self) (knowledge self).
Definition set_mines (v : gset Cell) (self : t) : t :=
  Build (height self) (width self) (moves_made self) v (safes self) (knowledge self).
Definition set_safes (v : gset Cell) (self : t) : t :=
  Build (height self) (width self) (moves_made self) (mines self) v (knowledge self).
Definition set_knowledge (v : list Sentence.t) (self : t) : t :=
  Build (height self) (width self) (moves_made self) (mines self) (safes self) v.

(** [__init__]: empty sets and an empty knowledge base. *)
Definition init (h w : Z) : t := Build h w ∅ ∅ ∅ [].

(** [mark_mine]: [self.mines.add(cell)], then [sentence.mark_mine(cell)]
    for every sentence of the knowledge base, in place. *)
Definition mark_mine (self : t) (cell : Cell) : t :=
  let self := set_mines ({[cell]} ∪ mines self) self in
  set_knowledge ((λ sentence, Sentence.mark_mine sentence cell) <$> knowledge self) self.

(** [mark_safe]: [self.safes.add(cell)], then [sentence.mark_safe(cell)]
    for every sentence of the knowledge base, in place. *)
Definition mark_safe (self : t) (cell : Cell) : t :=
  let self := set_safes ({[cell]} ∪ safes self) self in
  set_knowledge ((λ sentence, Sentence.mark_safe sentence cell) <$> knowledge self) self.

(** [for x in s.copy(): body]: the body runs once per element of the
    snapshot [s], in the enumeration order of the set. *)
Definition for_each (body : t → Cell → t) (s : gset Cell) (self : t) : t :=
  foldl body self (elements s).

(** The neighbour list of step 3: the two nested [range] loops, keeping
    the cells other than [cell] that are not in [self.safes]. *)
Definition neighbors (self : t) (cell : Cell) : list Cell :=
  let '(i, j) := cell in
  x ← range (Z.max 0 (i - 1)) (Z.min (height self) (i + 2));
  y ← range (Z.max 0 (j - 1)) (Z.min (width self) (j + 2));
  let neighbor := (x, y) in
  if bool_decide (neighbor ≠ cell) && bool_decide (neighbor ∉ safes self)
  then [neighbor] else [].

(** Steps 1-3 of [add_knowledge]: record the move, mark the cell safe,
    append the observation [Sentence(neighbors, count)]. *)
Definition observe (self : t) (cell : Cell) (count : Z) : t :=
  let self := set_moves_made ({[cell]} ∪ moves_made self) self in
  let self := mark_safe self cell in
  let new_sentence := Sentence.init (list_to_set (neighbors self cell)) count in
  set_knowledge (knowledge self ++ [new_sentence]) self.

(** Body of the first loop of step 4 for the sentence at position [i]:
    both queries are evaluated first, then the marks are made. *)
Definition resolve_sentence (i : nat) (self : t) : t :=
  match knowledge self !! i with
  | None => self
  | Some sentence =>
      let '(known_mines, sentence) := Sentence.known_mines sentence in
      let '(known_safes, sentence) := Sentence.known_safes sentence in
      let self := set_knowledge (<[i := sentence]> (knowledge self)) self in
      let self :=
        if bool_decide (known_mines ≠ ∅) then for_each mark_mine known_mines self else self in
      if bool_decide (known_safes ≠ ∅) then for_each mark_safe known_safes self else self
  end.

(** [for sentence in self.knowledge]: one left-to-right sweep by position;
    the marks rewrite the sentences but never resize the list. *)
Definition direct_resolution (self : t) : t :=
  foldl (λ self i, resolve_sentence i self) self (seq 0 (length (knowledge self))).

(** Body of the double loop of step 5. *)
Definition derive (kb : list Sentence.t) (new_knowledge : list Sentence.t)
    (sentence1 sentence2 : Sentence.t) : list Sentence.t :=
  if negb (Sentence.eqb sentence1 sentence2) then
    if bool_decide (Sentence.cells sentence1 ⊆ Sentence.cells sentence2) then
      let new_cells := Sentence.cells sentence2 ∖ Sentence.cells sentence1 in
      let new_count := (Sentence.count sentence2 - Sentence.count sentence1)%Z in
      let new_sentence := Sentence.init new_cells new_count in
      if negb (Sentence.contains new_sentence kb)
         && negb (Sentence.contains new_sentence new_knowledge)
      then new_knowledge ++ [new_sentence]
      else new_knowledge
    else new_knowledge
  else new_knowledge.

(** Step 5: the batch [new_knowledge] built from every ordered pair. *)
Definition subset_resolution (kb : list Sentence.t) : list Sentence.t :=
  foldl (λ new_knowledge sentence1,
           foldl (λ new_knowledge sentence2, derive kb new_knowledge sentence1 sentence2)
                 new_knowledge kb)
        [] kb.

(** Body of the inner loop of step 6.  [sentence] belongs to the batch,
    which is not yet part of [self.knowledge], so the marks leave it as it is. *)
Definition resolve_neighbor (cell : Cell) (sentence : Sentence.t)
    (self : t) (neighbor : Cell) : t :=
  if bool_decide (neighbor ≠ cell) then
    if bool_decide (neighbor ∉ mines self) && bool_decide (neighbor ∉ safes self) then
      if bool_decide (Sentence.count sentence = 0%Z) then mark_safe self neighbor
      else if bool_decide (Sentence.count sentence = Sentence.len_cells sentence)
           then mark_mine self neighbor
           else self
    else self
  else self.

(** Step 6: every cell of every derived sentence. *)
Definition resolve_derived (cell : Cell) (new_knowledge : list Sentence.t) (self : t) : t :=
  foldl (λ self sentence, for_each (resolve_neighbor cell sentence) (Sentence.cells sentence) self)
        self new_knowledge.

(** Steps 4-7 of [add_knowledge]: the inference pass. *)
Definition infer (self : t) (cell : Cell) : t :=
  let self := direct_resolution self in
  let new_knowledge := subset_resolution (knowledge self) in
  let self := resolve_derived cell new_knowledge self in
  set_knowledge (knowledge self ++ new_knowledge) self.

Definition add_knowledge (self : t) (cell : Cell) (count : Z) : t :=
  infer (observe self cell count) cell.

(** [make_safe_move]: the first board cell, rows outermost, that is not in
    [moves_made] and is in [safes]; [None] when the loops run out. *)
Definition make_safe_move (self : t) : option Cell * t :=
  (first_some (λ i,
     first_some (λ j,
       let cell := (i, j) in
       if bool_decide (cell ∉ moves_made self) && bool_decide (cell ∈ safes self)
       then Some cell else None)
       (range 0 (width self)))
     (range 0 (height self)),
   self).

(** The list [possible_moves] of [make_random_move]. *)
Definition possible_moves (self : t) : list Cell :=
  i ← range 0 (height self);
  j ← range 0 (width self);
  let cell := (i, j) in
  if bool_decide (cell ∉ moves_made self) && bool_decide (cell ∉ mines self)
  then [cell] else [].

(** [make_random_move].  [random.choice(l)] is [l[k]] for an index [k]
    below [len(l)] drawn by the generator; the draw is the argument
    [draw], reduced into range. *)
Definition make_random_move (self : t) (draw : nat) : option Cell * t :=
  let possible_moves := possible_moves self in
  (if bool_decide (possible_moves ≠ [])
   then possible_moves !! (draw mod length possible_moves)%nat
   else None,
   self).

End MinesweeperAI.

(** ** Python list indexing and the random generator *)

(** [l[i]]: a negative index counts from the end; [None] stands for
    [IndexError]. *)
Definition py_index {A : Type} (l : list A) (i : Z) : option A :=
  if bool_decide (0 ≤ i < Z.of_nat (length l))%Z then l !! Z.to_nat i
  else if bool_decide (- Z.of_nat (length l) ≤ i < 0)%Z
       then l !! Z.to_nat (Z.of_nat (length l) + i)
       else None.

(** [l[i] = v], with the same index rule. *)
Definition py_set {A : Type} (l : list A) (i : Z) (v : A) : option (list A) :=
  if bool_decide (0 ≤ i < Z.of_nat (length l))%Z then Some (<[Z.to_nat i := v]> l)
  else if bool_decide (- Z.of_nat (length l) ≤ i < 0)%Z
       then Some (<[Z.to_nat (Z.of_nat (length l) + i) := v]> l)
       else None.

(** [random.randrange(n)]: an integer of [range(n)] chosen by the raw draw
    of the generator; [None] stands for the [ValueError] raised when the
    range is empty. *)
Definition randrange (n : Z) (draw : nat) : option Z :=
  if bool_decide (0 < n)%Z then Some (Z.of_nat draw `mod` n)%Z else None.

(** ** class Minesweeper *)

Module Minesweeper.

Record t : Type := Build {
  height : Z;
  width : Z;
  mines : gset Cell;
  board : list (list bool);
  mines_found : gset Cell
}.

(** How a call of [__init__] ends: it returns the game, or [randrange]
    raises [ValueError], or an index is out of range, or the loop is still
    running when the draws of the generator that were supplied are used up. *)
Inductive outcome : Type :=
  | Returned (game : t)
  | ValueError
  | IndexError
  | StillPlacing.

(** The empty field built by the two nested loops of [__init__]. *)
Definition empty_board (height width : Z) : list (list bool) :=
  (λ _ : Z, (λ _ : Z, false) <$> range 0 width) <$> range 0 height.

(** The loop [while len(self.mines) != mines]: each turn takes two draws. *)
Fixpoint place (h w n : Z) (draws : list nat) (mines : gset Cell)
    (board : list (list bool)) : outcome :=
  if bool_decide (Z.of_nat (size mines) ≠ n) then
    match draws with
    | [] => StillPlacing
    | di :: draws =>
        match randrange h di with
        | None => ValueError
        | Some i =>
            match draws with
            | [] => StillPlacing
            | dj :: draws =>
                match randrange w dj with
                | None => ValueError
                | Some j =>
                    match py_index board i with
                    | None => IndexError
                    | Some row =>
                        match py_index row j with
                        | None => IndexError
                        | Some true => place h w n draws mines board
                        | Some false =>
                            match py_set row j true with
                            | None => IndexError
                            | Some row' =>
                                match py_set board i row' with
                                | None => IndexError
                                | Some board' =>
                                    place h w n draws ({[(i, j)]} ∪ mines) board'
                                end
                            end
                        end
                    end
                end
            end
        end
    end
  else Returned (Build h w mines board ∅).

(** [__init__(height, width, mines)], given the draws of the generator. *)
Definition init (height width mines : Z) (draws : list nat) : outcome :=
  place height width mines draws ∅ (empty_board height width).

(** [is_mine]: [self.board[i][j]]. *)
Definition is_mine (self : t) (cell : Cell) : option bool :=
  let '(i, j) := cell in
  row ← py_index (board self) i; py_index row j.

(** Body of the double loop of [nearby_mines]; a count of [None] records
    that an index was out of range. *)
Definition nearby_step (self : t) (cell : Cell) (count : option Z) (i j : Z) : option Z :=
  count ← count;
  if bool_decide ((i, j) = cell) then Some count
  else if bool_decide (0 ≤ i < height self)%Z && bool_decide (0 ≤ j < width self)%Z then
    row ← py_index (board self) i;
    b ← py_index row j;
    Some (if b : bool then (count + 1)%Z else count)
  else Some count.

Definition nearby_mines (self : t) (cell : Cell) : option Z :=
  foldl (λ count i,
           foldl (λ count j, nearby_step self cell count i j)
                 count (range (cell.2 - 1) (cell.2 + 2)))
        (Some 0%Z) (range (cell.1 - 1) (cell.1 + 2)).

(** [won]: all mines have been flagged. *)
Definition won (self : t) : bool := bool_decide (mines_found self = mines self).

End Minesweeper.

(** The board of a game has the mines of its [mines] set, and only those,
    on its [height] by [width] cells. *)
Definition board_agrees (g : Minesweeper.t) : Prop :=
  (∀ i j : Z,
      (0 ≤ i < Minesweeper.height g)%Z → (0 ≤ j < Minesweeper.width g)%Z →
      Minesweeper.is_mine g (i, j) = Some (bool_decide ((i, j) ∈ Minesweeper.mines g)))
  ∧ ∀ c : Cell,
      c ∈ Minesweeper.mines g →
      (0 ≤ c.1 < Minesweeper.height g)%Z ∧ (0 ≤ c.2 < Minesweeper.width g)%Z.

(** The cells the double loop of [nearby_mines] visits, in order. *)
Definition visited (cell : Cell) : list Cell :=
  i ← range (cell.1 - 1) (cell.1 + 2);
  j ← range (cell.2 - 1) (cell.2 + 2);
  [(i, j)].

(** A cell that [nearby_mines] counts: a mine of the board other than
    [cell]. *)
Definition counted (g : Minesweeper.t) (cell c : Cell) : Prop :=
  c ≠ cell
  ∧ ((0 ≤ c.1 < Minesweeper.height g)%Z ∧ (0 ≤ c.2 < Minesweeper.width g)%Z)
  ∧ c ∈ Minesweeper.mines g.

Global Instance counted_dec (g : Minesweeper.t) (cell c : Cell) : Decision (counted g cell c).
Proof. unfold counted. apply _. Defined.

(** The field [board] is [h] by [w] and has exactly the mines of [mines]. *)
Definition placed (h w : Z) (mines : gset Cell) (board : list (list bool)) : Prop :=
  length board = Z.to_nat h
  ∧ Forall (λ row, length row = Z.to_nat w) board
  ∧ (∀ i j : Z,
        (0 ≤ i < h)%Z → (0 ≤ j < w)%Z →
        ∃ row, board !! Z.to_nat i = Some row
               ∧ row !! Z.to_nat j = Some (bool_decide ((i, j) ∈ mines)))
  ∧ ∀ c : Cell, c ∈ mines → (0 ≤ c.1 < h)%Z ∧ (0 ≤ c.2 < w)%Z.

(** A game and an engine of the same size, for the examples. *)
Definition example_game : Minesweeper.t :=
  Minesweeper.Build 3 3 {[(0, 1)%Z]}
    [[false; true; false]; [false; false; false]; [false; false; false]] ∅.

(** ** The public operations as a transition system *)

Inductive op : Type :=
  | MarkMine (cell : Cell)
  | MarkSafe (cell : Cell)
  | AddKnowledge (cell : Cell) (count : Z)
  | SafeMove
  | RandomMove (draw : nat).

(** The engine state after one call; the result of a query is dropped. *)
Definition step (self : MinesweeperAI.t) (o : op) : MinesweeperAI.t :=
  match o with
  | MarkMine cell => MinesweeperAI.mark_mine self cell
  | MarkSafe cell => MinesweeperAI.mark_safe self cell
  | AddKnowledge cell count => MinesweeperAI.add_knowledge self cell count
  | SafeMove => (MinesweeperAI.make_safe_move self).2
  | RandomMove draw => (MinesweeperAI.make_random_move self draw).2
  end.

Definition run (self : MinesweeperAI.t) (ops : list op) : MinesweeperAI.t :=
  foldl step self ops.

(** ** Vocabulary of the properties *)

(** A cell lies on the board of the engine. *)
Definition on_board (self : MinesweeperAI.t) (c : Cell) : Prop :=
  (0 ≤ c.1 < MinesweeperAI.height self)%Z ∧ (0 ≤ c.2 < MinesweeperAI.width self)%Z.

Definition chebyshev (c d : Cell) : Z :=
  Z.max (Z.abs (c.1 - d.1)) (Z.abs (c.2 - d.2)).

(** [c] comes before [d] when rows are scanned outermost. *)
Definition row_major_lt (c d : Cell) : Prop :=
  (c.1 < d.1)%Z ∨ (c.1 = d.1 ∧ c.2 < d.2)%Z.

(** The count invariant of a sentence: [0 <= count <= len(cells)]. *)
Definition count_in_range (s : Sentence.t) : Prop :=
  (0 ≤ Sentence.count s ≤ Sentence.len_cells s)%Z.

(** [s'] is what became of [s] after some marks: cells were only removed,
    and a sentence that kept all its cells is unchanged. *)
Definition reduces_to (s s' : Sentence.t) : Prop :=
  Sentence.cells s' ⊆ Sentence.cells s ∧ (Sentence.cells s' = Sentence.cells s → s' = s).

(** The engine state [b] is a later stage of [a]. *)
Definition grows (a b : MinesweeperAI.t) : Prop :=
  MinesweeperAI.height b = MinesweeperAI.height a
  ∧ MinesweeperAI.width b = MinesweeperAI.width a
  ∧ MinesweeperAI.moves_made a ⊆ MinesweeperAI.moves_made b
  ∧ MinesweeperAI.mines a ⊆ MinesweeperAI.mines b
  ∧ MinesweeperAI.safes a ⊆ MinesweeperAI.safes b
  ∧ ∀ i s, MinesweeperAI.knowledge a !! i = Some s →
      ∃ s', MinesweeperAI.knowledge b !! i = Some s' ∧ reduces_to s s'.

(** The sentence obtained from [s2] by taking away the cells and the count
    of [s1]. *)
Definition subtract (s2 s1 : Sentence.t) : Sentence.t :=
  Sentence.Build (Sentence.cells s2 ∖ Sentence.cells s1)
                 (Sentence.count s2 - Sentence.count s1).


(** ** Truthful play against a fixed mine placement *)

(** The sentence [s] is true of the mine placement [M]: exactly [count] of
    its cells are mines. *)
Definition holds (M : gset Cell) (s : Sentence.t) : Prop :=
  Sentence.count s = Z.of_nat (size (Sentence.cells s ∩ M)).

(** Everything the engine believes is true of [M]. *)
Definition sound (M : gset Cell) (self : MinesweeperAI.t) : Prop :=
  MinesweeperAI.mines self ⊆ M
  ∧ MinesweeperAI.safes self ## M
  ∧ Forall (holds M) (MinesweeperAI.knowledge self).

(** The cells the neighbour loops of [add_knowledge] visit around [cell],
    whatever is known about them. *)
Definition around (self : MinesweeperAI.t) (cell : Cell) : gset Cell :=
  list_to_set (MinesweeperAI.neighbors (MinesweeperAI.set_safes ∅ self) cell).

(** A call that tells the engine nothing false about [M]: only mines are
    marked as mines, only other cells as safe, and an observation is made on a
    cell that is not a mine with the number of mines around it. *)
Definition truthful (M : gset Cell) (self : MinesweeperAI.t) (o : op) : Prop :=
  match o with
  | MarkMine cell => cell ∈ M
  | MarkSafe cell => cell ∉ M
  | AddKnowledge cell count =>
      (cell ∉ M) ∧ (count = Z.of_nat (size (around self cell ∩ M)))
  | SafeMove | RandomMove _ => True
  end.

Fixpoint truthful_run (M : gset Cell) (self : MinesweeperAI.t) (ops : list op) : Prop :=
  match ops with
  | [] => True
  | o :: ops' => truthful M self o ∧ truthful_run M (step self o) ops'
  end.

(** ** Concrete engine states used in the examples *)

(** An 8 by 8 engine that knows [{(0,0),(0,1)} = 1] and
    [{(0,0),(0,1),(0,2)} = 2]. *)
Definition scenario_state : MinesweeperAI.t :=
  MinesweeperAI.Build 8 8 ∅ ∅ ∅
    [Sentence.Build {[(0, 0)%Z; (0, 1)%Z]} 1;
     Sentence.Build {[(0, 0)%Z; (0, 1)%Z; (0, 2)%Z]} 2].




(** A cell marked as a mine and then as safe. *)
Definition contradictory_marks : list op :=
  [MarkMine (0, 0)%Z; MarkSafe (0, 0)%Z].

(** An observation followed by two marks that contradict it. *)
Definition contradictory_play : list op :=
  [AddKnowledge (0, 0)%Z 2; MarkSafe (0, 1)%Z; MarkSafe (1, 0)%Z].

(** A 3 by 3 board with one mine at (0,1), and a game played on it. *)
Definition example_mines : gset Cell := {[(0, 1)%Z]}.

Definition example_play : list op :=
  [AddKnowledge (0, 0)%Z 1; AddKnowledge (2, 0)%Z 0; SafeMove;
   AddKnowledge (1, 0)%Z 1; RandomMove 3; MarkMine (0, 1)%Z; MarkSafe (2, 2)%Z].

Global Instance count_in_range_dec (s : Sentence.t) : Decision (count_in_range s).
Proof. unfold count_in_range. apply _. Defined.

(** The cells observed by the [add_knowledge] calls of a sequence. *)
Definition observed_cells (ops : list op) : gset Cell :=
  list_to_set (omap (λ o, match o with AddKnowledge cell _ => Some cell | _ => None end) ops).

(** [b] is a later stage of [a] in which every cell that has left a
    sentence is in [mines] or in [safes]. *)
Definition accounts (a b : MinesweeperAI.t) : Prop :=
  MinesweeperAI.mines a ⊆ MinesweeperAI.mines b
  ∧ MinesweeperAI.safes a ⊆ MinesweeperAI.safes b
  ∧ ∀ i s, MinesweeperAI.knowledge a !! i = Some s →
      ∃ s', MinesweeperAI.knowledge b !! i = Some s'
            ∧ Sentence.cells s' ⊆ Sentence.cells s
            ∧ Sentence.cells s
              ⊆ Sentence.cells s' ∪ MinesweeperAI.mines b ∪ MinesweeperAI.safes b.

(** ** Basic facts about the sentence methods *)

Section sentence_facts.
Implicit Types (s : Sentence.t) (c : Cell).

Lemma sentence_eqb_eq s1 s2 : Sentence.eqb s1 s2 = true ↔ s1 = s2.
Proof.
  unfold Sentence.eqb. rewrite andb_true_iff, !bool_decide_eq_true.
  destruct s1, s2; simpl. split; [intros [-> ->]; done | intros [= -> ->]; done].
Qed.

Lemma sentence_contains_elem s (l : list Sentence.t) :
  Sentence.contains s l = true ↔ s ∈ l.
Proof.
  unfold Sentence.contains. rewrite existsb_exists. split.
  - intros (x & Hx & He). apply sentence_eqb_eq in He as ->. by apply list_elem_of_In.
  - intros H. exists s. split; [by apply list_elem_of_In | by apply sentence_eqb_eq].
Qed.

Lemma sentence_mark_mine_in s c :
  c ∈ Sentence.cells s →
  Sentence.mark_mine s c = Sentence.Build (Sentence.cells s ∖ {[c]}) (Sentence.count s - 1).
Proof. intros H. unfold Sentence.mark_mine. by rewrite bool_decide_eq_true_2. Qed.

Lemma sentence_mark_mine_notin s c : c ∉ Sentence.cells s → Sentence.mark_mine s c = s.
Proof. intros H. unfold Sentence.mark_mine. by rewrite bool_decide_eq_false_2. Qed.

Lemma sentence_mark_safe_in s c :
  c ∈ Sentence.cells s →
  Sentence.mark_safe s c = Sentence.Build (Sentence.cells s ∖ {[c]}) (Sentence.count s).
Proof. intros H. unfold Sentence.mark_safe. by rewrite bool_decide_eq_true_2. Qed.

Lemma sentence_mark_safe_notin s c : c ∉ Sentence.cells s → Sentence.mark_safe s c = s.
Proof. intros H. unfold Sentence.mark_safe. by rewrite bool_decide_eq_false_2. Qed.

Lemma sentence_mark_mine_cells s c :
  Sentence.cells (Sentence.mark_mine s c) = Sentence.cells s ∖ {[c]}.
Proof. unfold Sentence.mark_mine. case_bool_decide; simpl; set_solver. Qed.

Lemma sentence_mark_safe_cells s c :
  Sentence.cells (Sentence.mark_safe s c) = Sentence.cells s ∖ {[c]}.
Proof. unfold Sentence.mark_safe. case_bool_decide; simpl; set_solver. Qed.

Lemma reduces_to_refl s : reduces_to s s.
Proof. by split. Qed.

Lemma reduces_to_trans s1 s2 s3 : reduces_to s1 s2 → reduces_to s2 s3 → reduces_to s1 s3.
Proof.
  intros [H1 E1] [H2 E2]. split; [set_solver |].
  intros E. assert (Sentence.cells s2 = Sentence.cells s1) as E' by set_solver.
  rewrite <- (E1 E'). apply E2. congruence.
Qed.

Lemma reduces_to_mark_mine s c : reduces_to s (Sentence.mark_mine s c).
Proof.
  split; [rewrite sentence_mark_mine_cells; set_solver |].
  rewrite sentence_mark_mine_cells. intros E.
  apply sentence_mark_mine_notin. set_solver.
Qed.

Lemma reduces_to_mark_safe s c : reduces_to s (Sentence.mark_safe s c).
Proof.
  split; [rewrite sentence_mark_safe_cells; set_solver |].
  rewrite sentence_mark_safe_cells. intros E.
  apply sentence_mark_safe_notin. set_solver.
Qed.

Lemma reduces_to_empty s s' : Sentence.cells s = ∅ → reduces_to s s' → s' = s.
Proof. intros E [H1 H2]. apply H2. set_solver. Qed.

End sentence_facts.

(** ** Basic facts about the engine methods *)

Section engine_facts.
Import MinesweeperAI.
Implicit Types (self : MinesweeperAI.t) (c cell : Cell).

Lemma grows_refl self : grows self self.
Proof. split_and!; try done. intros i s H. exists s. split; [done | apply reduces_to_refl]. Qed.

Lemma grows_trans a b d : grows a b → grows b d → grows a d.
Proof.
  intros (H1 & H2 & H3 & H4 & H5 & H6) (G1 & G2 & G3 & G4 & G5 & G6).
  split_and!; [congruence | congruence | by etrans | by etrans | by etrans |].
  intros i s Hs. destruct (H6 i s Hs) as (s' & Hs' & R).
  destruct (G6 i s' Hs') as (s'' & Hs'' & R'). exists s''. split; [done |].
  by eapply reduces_to_trans.
Qed.

Lemma grows_mark_mine self c : grows self (mark_mine self c).
Proof.
  split_and!; simpl; [done | done | done | apply union_subseteq_r | done |].
  intros i s Hs. exists (Sentence.mark_mine s c). rewrite list_lookup_fmap, Hs. simpl.
  split; [done | apply reduces_to_mark_mine].
Qed.

Lemma grows_mark_safe self c : grows self (mark_safe self c).
Proof.
  split_and!; simpl; [done | done | done | done | apply union_subseteq_r |].
  intros i s Hs. exists (Sentence.mark_safe s c). rewrite list_lookup_fmap, Hs. simpl.
  split; [done | apply reduces_to_mark_safe].
Qed.

(** A loop whose body only moves the state forward moves it forward. *)
Lemma grows_foldl {X : Type} (f : t → X → t) (l : list X) self :
  (∀ a x, x ∈ l → grows a (f a x)) → grows self (foldl f self l).
Proof.
  revert self. induction l as [| x l IH]; intros self H; simpl; [apply grows_refl |].
  eapply grows_trans; [apply H; left |]. apply IH. intros a y Hy. apply H. by right.
Qed.

Lemma grows_for_each (body : t → Cell → t) (s : gset Cell) self :
  (∀ a x, x ∈ s → grows a (body a x)) → grows self (for_each body s self).
Proof. intros H. apply grows_foldl. intros a x Hx. apply H. by apply elem_of_elements. Qed.

Lemma sentence_known_mines_self (s : Sentence.t) : (Sentence.known_mines s).2 = s.
Proof. unfold Sentence.known_mines. by case_bool_decide. Qed.

Lemma sentence_known_safes_self (s : Sentence.t) : (Sentence.known_safes s).2 = s.
Proof. unfold Sentence.known_safes. by case_bool_decide. Qed.

(** The loop body of step 4 with the two queries evaluated. *)
Lemma resolve_sentence_eq i self (s : Sentence.t) :
  knowledge self !! i = Some s →
  resolve_sentence i self =
    let km := (Sentence.known_mines s).1 in
    let ks := (Sentence.known_safes s).1 in
    let self := if bool_decide (km ≠ ∅) then for_each mark_mine km self else self in
    if bool_decide (ks ≠ ∅) then for_each mark_safe ks self else self.
Proof.
  intros H. unfold resolve_sentence. rewrite H.
  pose proof (sentence_known_mines_self s) as E1.
  destruct (Sentence.known_mines s) as [km s1]. simpl in E1. subst s1.
  pose proof (sentence_known_safes_self s) as E2.
  destruct (Sentence.known_safes s) as [ks s2]. simpl in E2. subst s2.
  rewrite (list_insert_id _ _ _ H).
  assert (set_knowledge (knowledge self) self = self) as -> by by destruct self.
  done.
Qed.

Lemma grows_resolve_sentence i self : grows self (resolve_sentence i self).
Proof.
  destruct (knowledge self !! i) as [s |] eqn:H.
  - rewrite (resolve_sentence_eq _ _ _ H). simpl.
    set (mid := if bool_decide ((Sentence.known_mines s).1 ≠ ∅)
                then for_each mark_mine (Sentence.known_mines s).1 self else self).
    apply (grows_trans _ mid).
    + unfold mid. case_bool_decide; [| apply grows_refl].
      apply grows_for_each. intros. apply grows_mark_mine.
    + case_bool_decide; [| apply grows_refl].
      apply grows_for_each. intros. apply grows_mark_safe.
  - unfold resolve_sentence. rewrite H. apply grows_refl.
Qed.

Lemma grows_direct_resolution self : grows self (direct_resolution self).
Proof. apply grows_foldl. intros. apply grows_resolve_sentence. Qed.

Lemma grows_resolve_neighbor cell (s : Sentence.t) self c :
  grows self (resolve_neighbor cell s self c).
Proof.
  unfold resolve_neighbor.
  repeat (case_bool_decide || destruct (_ && _));
    auto using grows_refl, grows_mark_mine, grows_mark_safe.
Qed.

Lemma grows_resolve_derived cell nk self : grows self (resolve_derived cell nk self).
Proof.
  apply grows_foldl. intros a s _. apply grows_for_each.
  intros. apply grows_resolve_neighbor.
Qed.

Lemma grows_append self (l : list Sentence.t) :
  grows self (set_knowledge (knowledge self ++ l) self).
Proof.
  split_and!; simpl; [done | done | done | done | done |].
  intros i s H. exists s. split; [| apply reduces_to_refl].
  by apply lookup_app_l_Some.
Qed.

Lemma grows_observe self cell n : grows self (observe self cell n).
Proof.
  unfold observe.
  eapply grows_trans; [| apply grows_append].
  eapply grows_trans; [| apply grows_mark_safe].
  split_and!; simpl; [done | done | apply union_subseteq_r | done | done |].
  intros i s H. exists s. split; [done | apply reduces_to_refl].
Qed.

Lemma grows_infer self cell : grows self (infer self cell).
Proof.
  unfold infer.
  eapply grows_trans; [apply grows_direct_resolution |].
  eapply grows_trans; [apply grows_resolve_derived |].
  apply grows_append.
Qed.

Lemma grows_add_knowledge self cell n : grows self (add_knowledge self cell n).
Proof. eapply grows_trans; [apply grows_observe | apply grows_infer]. Qed.

Lemma grows_step self o : grows self (step self o).
Proof.
  destruct o; simpl;
    auto using grows_refl, grows_mark_mine, grows_mark_safe, grows_add_knowledge.
Qed.

Lemma grows_length a b : grows a b → length (knowledge a) ≤ length (knowledge b).
Proof.
  intros (_ & _ & _ & _ & _ & H).
  destruct (decide (length (knowledge a) ≤ length (knowledge b))) as [| Hn]; [done |].
  destruct (lookup_lt_is_Some_2 (knowledge a) (length (knowledge b))) as [s Hs]; [lia |].
  destruct (H _ _ Hs) as (s' & Hs' & _). apply lookup_lt_Some in Hs'. lia.
Qed.

End engine_facts.

(** ** Runs of public operations *)

Section run_facts.
Import MinesweeperAI.
Implicit Types (self : MinesweeperAI.t) (c cell : Cell).

Lemma grows_run self ops : grows self (run self ops).
Proof. apply grows_foldl. intros. apply grows_step. Qed.

Lemma observe_knowledge self cell n :
  knowledge (observe self cell n)
  = ((λ s, Sentence.mark_safe s cell) <$> knowledge self)
      ++ [Sentence.Build
            (list_to_set
               (neighbors (mark_safe (set_moves_made ({[cell]} ∪ moves_made self) self) cell)
                          cell))
            n].
Proof. reflexivity. Qed.

Lemma observe_length self cell n :
  length (knowledge (observe self cell n)) = S (length (knowledge self)).
Proof. rewrite observe_knowledge, length_app, length_fmap. simpl. lia. Qed.

End run_facts.

(** ** The forced-cell queries of a sentence *)

(** C5: [known_mines] returns the cells of the sentence when its count
    equals the number of its cells and the empty set otherwise;
    [known_safes] returns the cells when the count is 0 and the empty set
    otherwise; each call leaves the sentence exactly as it was. *)
Theorem sentence_known_queries (s : Sentence.t) :
  Sentence.known_mines s
  = (if decide (Sentence.count s = Z.of_nat (size (Sentence.cells s)))
     then Sentence.cells s else ∅, s)
  ∧ Sentence.known_safes s
    = (if decide (Sentence.count s = 0%Z) then Sentence.cells s else ∅, s).
Proof.
  unfold Sentence.known_mines, Sentence.known_safes, Sentence.len_cells. split.
  - case_bool_decide; case_decide; done.
  - case_bool_decide; case_decide; done.
Qed.

(** ** Marking a cell twice *)

Lemma sentence_mark_mine_twice (s : Sentence.t) (c : Cell) :
  Sentence.mark_mine (Sentence.mark_mine s c) c = Sentence.mark_mine s c.
Proof. apply sentence_mark_mine_notin. rewrite sentence_mark_mine_cells. set_solver. Qed.

Lemma sentence_mark_safe_twice (s : Sentence.t) (c : Cell) :
  Sentence.mark_safe (Sentence.mark_safe s c) c = Sentence.mark_safe s c.
Proof. apply sentence_mark_safe_notin. rewrite sentence_mark_safe_cells. set_solver. Qed.

(** C9: marking the same cell a second time, as a mine or as safe, changes
    nothing: the sets [mines], [safes], [moves_made] and every sentence of
    the knowledge base are as after the first call. *)
Theorem mark_twice_same_state (self : MinesweeperAI.t) (c : Cell) :
  MinesweeperAI.mark_mine (MinesweeperAI.mark_mine self c) c = MinesweeperAI.mark_mine self c
  ∧ MinesweeperAI.mark_safe (MinesweeperAI.mark_safe self c) c = MinesweeperAI.mark_safe self c.
Proof.
  destruct self as [h w mv mi sa kb].
  unfold MinesweeperAI.mark_mine, MinesweeperAI.mark_safe,
    MinesweeperAI.set_mines, MinesweeperAI.set_safes, MinesweeperAI.set_knowledge; simpl.
  split; f_equal.
  - set_solver.
  - rewrite <- list_fmap_compose. apply list_fmap_ext. intros i s _. simpl.
    apply sentence_mark_mine_twice.
  - set_solver.
  - rewrite <- list_fmap_compose. apply list_fmap_ext. intros i s _. simpl.
    apply sentence_mark_safe_twice.
Qed.

(** ** Monotonicity of the three cell sets *)

(** C8: after any sequence of [mark_mine], [mark_safe], [add_knowledge],
    [make_safe_move] and [make_random_move] calls, every cell that was in
    [moves_made], [mines] or [safes] is still in that set. *)
Theorem cell_sets_never_shrink (self : MinesweeperAI.t) (ops : list op) :
  MinesweeperAI.moves_made self ⊆ MinesweeperAI.moves_made (run self ops)
  ∧ MinesweeperAI.mines self ⊆ MinesweeperAI.mines (run self ops)
  ∧ MinesweeperAI.safes self ⊆ MinesweeperAI.safes (run self ops).
Proof. destruct (grows_run self ops) as (_ & _ & H1 & H2 & H3 & _). done. Qed.

(** ** The knowledge base only gains entries *)

(** C10: no sequence of operations removes an entry of the knowledge base:
    the list never gets shorter, the sentence at each position is still
    there with a subset of its cells, and a sentence whose cell set is empty
    stays at its position unchanged.  Every [add_knowledge] call makes the
    list strictly longer: the observation sentence is put at the first free
    position whatever its cell set is, empty included, and what is found
    there when the call returns is that sentence, possibly reduced. *)
Theorem knowledge_never_loses_entries (self : MinesweeperAI.t) :
  (∀ ops : list op,
      length (MinesweeperAI.knowledge self) ≤ length (MinesweeperAI.knowledge (run self ops))
      ∧ ∀ (i : nat) (s : Sentence.t),
          MinesweeperAI.knowledge self !! i = Some s →
          ∃ s', MinesweeperAI.knowledge (run self ops) !! i = Some s'
                ∧ Sentence.cells s' ⊆ Sentence.cells s
                ∧ (Sentence.cells s = ∅ → s' = s))
  ∧ (∀ (cell : Cell) (n : Z),
        length (MinesweeperAI.knowledge self)
        < length (MinesweeperAI.knowledge (MinesweeperAI.add_knowledge self cell n))
        ∧ ∃ obs obs',
            MinesweeperAI.knowledge (MinesweeperAI.observe self cell n)
              !! length (MinesweeperAI.knowledge self) = Some obs
            ∧ Sentence.count obs = n
            ∧ MinesweeperAI.knowledge (MinesweeperAI.add_knowledge self cell n)
                !! length (MinesweeperAI.knowledge self) = Some obs'
            ∧ reduces_to obs obs').
Proof.
  split.
  - intros ops. pose proof (grows_run self ops) as G. split; [by apply grows_length |].
    intros i s Hs. destruct G as (_ & _ & _ & _ & _ & G).
    destruct (G i s Hs) as (s' & Hs' & R). exists s'. split_and!; [done | apply R |].
    intros E. by eapply reduces_to_empty.
  - intros cell n.
    pose proof (grows_infer (MinesweeperAI.observe self cell n) cell) as G.
    fold (MinesweeperAI.add_knowledge self cell n) in G.
    pose proof (grows_length _ _ G) as L. rewrite observe_length in L. split; [lia |].
    destruct G as (_ & _ & _ & _ & _ & G).
    assert (MinesweeperAI.knowledge (MinesweeperAI.observe self cell n)
              !! length (MinesweeperAI.knowledge self)
            = Some (Sentence.Build
                      (list_to_set
                         (MinesweeperAI.neighbors
                            (MinesweeperAI.mark_safe
                               (MinesweeperAI.set_moves_made
                                  ({[cell]} ∪ MinesweeperAI.moves_made self) self) cell)
                            cell)) n)) as Hobs.
    { rewrite observe_knowledge. rewrite lookup_app_r; rewrite length_fmap; [| lia].
      by rewrite Nat.sub_diag. }
    destruct (G _ _ Hobs) as (obs' & Hobs' & R).
    eexists _, obs'. split_and!; [exact Hobs | done | exact Hobs' | exact R].
Qed.

(** ** Loops over [range] *)

Section range_facts.

Lemma elem_of_range (a b k : Z) : k ∈ range a b ↔ (a ≤ k < b)%Z.
Proof. unfold range. rewrite elem_of_seqZ. lia. Qed.

Lemma first_some_seqZ_None {B : Type} (f : Z → option B) (n : nat) (m : Z) :
  first_some f (seqZ m (Z.of_nat n)) = None ↔ ∀ k, (m ≤ k < m + Z.of_nat n)%Z → f k = None.
Proof.
  revert m. induction n as [| n IH]; intros m.
  - rewrite seqZ_nil by lia. simpl. split; [intros _ k Hk; lia | done].
  - rewrite seqZ_cons by lia. simpl.
    replace (Z.pred (Z.of_nat (S n))) with (Z.of_nat n) by lia.
    destruct (f m) as [y |] eqn:Hm.
    + split; [done |]. intros H. rewrite H in Hm by lia. done.
    + rewrite IH. split.
      * intros H k Hk. destruct (decide (k = m)) as [-> | Hne]; [done |]. apply H. lia.
      * intros H k Hk. apply H. lia.
Qed.

Lemma first_some_seqZ_Some {B : Type} (f : Z → option B) (n : nat) (m : Z) (y : B) :
  first_some f (seqZ m (Z.of_nat n)) = Some y
  ↔ ∃ k, (m ≤ k < m + Z.of_nat n)%Z ∧ f k = Some y ∧ ∀ k', (m ≤ k' < k)%Z → f k' = None.
Proof.
  revert m. induction n as [| n IH]; intros m.
  - rewrite seqZ_nil by lia. simpl. split; [done | intros (k & Hk & _); lia].
  - rewrite seqZ_cons by lia. simpl.
    replace (Z.pred (Z.of_nat (S n))) with (Z.of_nat n) by lia.
    destruct (f m) as [y' |] eqn:Hm.
    + split.
      * intros [= ->]. exists m. split_and!; [lia | lia | done | intros; lia].
      * intros (k & Hk & Hy & Hlt). destruct (decide (k = m)) as [-> | Hne]; [congruence |].
        rewrite Hlt in Hm by lia. done.
    + rewrite IH. split.
      * intros (k & Hk & Hy & Hlt). exists k. split_and!; [lia | lia | done |].
        intros k' Hk'. destruct (decide (k' = m)) as [-> | Hne]; [done |]. apply Hlt. lia.
      * intros (k & Hk & Hy & Hlt). exists k.
        assert (k ≠ m) by congruence. split_and!; [lia | lia | done |].
        intros k' Hk'. apply Hlt. lia.
Qed.

(** A scan of [range(0, b)] with early return. *)
Lemma first_some_range_None {B : Type} (f : Z → option B) (b : Z) :
  first_some f (range 0 b) = None ↔ ∀ k, (0 ≤ k < b)%Z → f k = None.
Proof.
  unfold range. destruct (decide (0 ≤ b)%Z) as [Hb | Hb].
  - replace (b - 0)%Z with (Z.of_nat (Z.to_nat b)) by lia.
    rewrite first_some_seqZ_None. split; intros H k Hk; apply H; lia.
  - rewrite seqZ_nil by lia. simpl. split; [intros _ k Hk; lia | done].
Qed.

Lemma first_some_range_Some {B : Type} (f : Z → option B) (b : Z) (y : B) :
  first_some f (range 0 b) = Some y
  ↔ ∃ k, (0 ≤ k < b)%Z ∧ f k = Some y ∧ ∀ k', (0 ≤ k' < k)%Z → f k' = None.
Proof.
  unfold range. destruct (decide (0 ≤ b)%Z) as [Hb | Hb].
  - replace (b - 0)%Z with (Z.of_nat (Z.to_nat b)) by lia.
    rewrite first_some_seqZ_Some. split; intros (k & Hk & Hy & Hlt); exists k;
      (split_and!; [lia | lia | done | intros; apply Hlt; lia]).
  - rewrite seqZ_nil by lia. simpl. split; [done | intros (k & Hk & _); lia].
Qed.

End range_facts.

(** ** The observation sentence of [add_knowledge] *)

Lemma elem_of_neighbors (self : MinesweeperAI.t) (cell c : Cell) :
  c ∈ MinesweeperAI.neighbors self cell
  ↔ (chebyshev c cell ≤ 1)%Z ∧ on_board self c ∧ c ≠ cell ∧ (c ∉ MinesweeperAI.safes self).
Proof.
  destruct cell as [i j], c as [x y].
  unfold MinesweeperAI.neighbors, chebyshev, on_board. simpl.
  rewrite list_elem_of_bind. split.
  - intros (x' & Hin & Hx). apply elem_of_range in Hx.
    apply list_elem_of_bind in Hin as (y' & Hin & Hy). apply elem_of_range in Hy.
    destruct (bool_decide ((x', y') ≠ (i, j))) eqn:E1;
      destruct (bool_decide ((x', y') ∉ MinesweeperAI.safes self)) eqn:E2;
      simpl in Hin; try (by apply not_elem_of_nil in Hin).
    apply list_elem_of_singleton in Hin as [= -> ->].
    apply bool_decide_eq_true in E1. apply bool_decide_eq_true in E2.
    split_and!; [lia | lia | lia | lia | lia | done | done].
  - intros (Hd & [Hx Hy] & Hne & Hs). exists x. split; [| apply elem_of_range; lia].
    apply list_elem_of_bind. exists y. split; [| apply elem_of_range; lia].
    rewrite !bool_decide_eq_true_2 by done. simpl. by apply list_elem_of_singleton.
Qed.

(** C4: [add_knowledge(cell, count)] appends, after marking [cell] safe, one
    observation sentence; its count is the given count and its cells are
    exactly the cells at Chebyshev distance at most 1 from [cell] that lie on
    the [height] by [width] board, differ from [cell], and are not in [safes]
    at that point (the earlier safes and [cell] itself).  The inference steps
    of the call then run on that knowledge base. *)
Theorem observation_sentence_cells (self : MinesweeperAI.t) (cell : Cell) (n : Z) :
  ∃ obs : Sentence.t,
    MinesweeperAI.knowledge (MinesweeperAI.observe self cell n)
    = MinesweeperAI.knowledge (MinesweeperAI.mark_safe self cell) ++ [obs]
    ∧ Sentence.count obs = n
    ∧ (∀ c : Cell,
          c ∈ Sentence.cells obs
          ↔ (chebyshev c cell ≤ 1)%Z ∧ on_board self c ∧ c ≠ cell
            ∧ (c ∉ MinesweeperAI.safes (MinesweeperAI.mark_safe self cell)))
    ∧ MinesweeperAI.add_knowledge self cell n
      = MinesweeperAI.infer (MinesweeperAI.observe self cell n) cell.
Proof.
  eexists. split_and!; [apply observe_knowledge | done | | done].
  intros c. simpl. rewrite elem_of_list_to_set, elem_of_neighbors. simpl.
  unfold on_board. simpl. done.
Qed.

(** ** Move selection *)

Section move_facts.
Import MinesweeperAI.
Implicit Types (self : MinesweeperAI.t) (c d : Cell).

Lemma safe_candidate_Some self c c' :
  (if bool_decide (c ∉ moves_made self) && bool_decide (c ∈ safes self)
   then Some c else None) = Some c'
  ↔ c' = c ∧ (c ∉ moves_made self) ∧ c ∈ safes self.
Proof.
  destruct (bool_decide (c ∉ moves_made self)) eqn:E1;
    destruct (bool_decide (c ∈ safes self)) eqn:E2; simpl;
    try apply bool_decide_eq_true in E1; try apply bool_decide_eq_true in E2;
    try apply bool_decide_eq_false in E1; try apply bool_decide_eq_false in E2;
    naive_solver.
Qed.

Lemma safe_candidate_None self c :
  (if bool_decide (c ∉ moves_made self) && bool_decide (c ∈ safes self)
   then Some c else None) = None
  ↔ ¬ ((c ∉ moves_made self) ∧ c ∈ safes self).
Proof.
  destruct (bool_decide (c ∉ moves_made self)) eqn:E1;
    destruct (bool_decide (c ∈ safes self)) eqn:E2; simpl;
    try apply bool_decide_eq_true in E1; try apply bool_decide_eq_true in E2;
    try apply bool_decide_eq_false in E1; try apply bool_decide_eq_false in E2;
    naive_solver.
Qed.

(** The scan of one row. *)
Lemma scan_row_Some self (i : Z) c :
  first_some (λ j, let cell := (i, j) in
                   if bool_decide (cell ∉ moves_made self) && bool_decide (cell ∈ safes self)
                   then Some cell else None) (range 0 (width self)) = Some c
  ↔ c.1 = i ∧ (0 ≤ c.2 < width self)%Z ∧ (c ∉ moves_made self) ∧ c ∈ safes self
    ∧ ∀ j, (0 ≤ j < c.2)%Z → ¬ (((i, j) ∉ moves_made self) ∧ (i, j) ∈ safes self).
Proof.
  rewrite first_some_range_Some. simpl. split.
  - intros (j & Hj & Hc & Hlt). apply safe_candidate_Some in Hc as (-> & H1 & H2). simpl.
    split_and!; [done | lia | lia | done | done |].
    intros j' Hj'. apply safe_candidate_None. apply Hlt. lia.
  - destruct c as [ci cj]. simpl. intros (-> & Hj & H1 & H2 & Hlt). exists cj.
    split_and!; [lia | lia | by apply safe_candidate_Some |].
    intros j' Hj'. apply safe_candidate_None. apply Hlt. lia.
Qed.

Lemma scan_row_None self (i : Z) :
  first_some (λ j, let cell := (i, j) in
                   if bool_decide (cell ∉ moves_made self) && bool_decide (cell ∈ safes self)
                   then Some cell else None) (range 0 (width self)) = None
  ↔ ∀ j, (0 ≤ j < width self)%Z → ¬ (((i, j) ∉ moves_made self) ∧ (i, j) ∈ safes self).
Proof.
  rewrite first_some_range_None. simpl.
  split; intros H j Hj; apply safe_candidate_None; by apply H.
Qed.

Lemma make_safe_move_Some self c :
  (make_safe_move self).1 = Some c
  ↔ on_board self c ∧ c ∈ safes self ∧ (c ∉ moves_made self)
    ∧ ∀ d, on_board self d → d ∈ safes self → d ∉ moves_made self → ¬ row_major_lt d c.
Proof.
  unfold make_safe_move. simpl. rewrite first_some_range_Some. split.
  - intros (i & Hi & Hrow & Hlt).
    apply scan_row_Some in Hrow as (Ei & Hj & H1 & H2 & Hlt').
    unfold on_board. split_and!; [lia | lia | lia | lia | done | done |].
    intros [di dj] [Hdi Hdj] Hs Hm [Hr | [Hr1 Hr2]]; simpl in *.
    + specialize (Hlt di). rewrite scan_row_None in Hlt.
      apply (Hlt ltac:(lia) dj ltac:(lia)). done.
    + apply (Hlt' dj ltac:(lia)). rewrite <- Ei, <- Hr1. done.
  - intros ([Hi Hj] & Hs & Hm & Hmin). exists c.1. split_and!; [lia | lia | |].
    + apply scan_row_Some. split_and!; [done | lia | lia | done | done |].
      intros j Hj' [H1 H2]. apply (Hmin (c.1, j)); [split; simpl; lia | done | done |].
      right. simpl. lia.
    + intros i Hi'. apply scan_row_None. intros j Hj' [H1 H2].
      apply (Hmin (i, j)); [split; simpl; lia | done | done |]. left. simpl. lia.
Qed.

Lemma make_safe_move_None self :
  (make_safe_move self).1 = None
  ↔ ∀ d, on_board self d → d ∈ safes self → d ∈ moves_made self.
Proof.
  unfold make_safe_move. simpl. rewrite first_some_range_None. split.
  - intros H [di dj] [Hi Hj] Hs. simpl in *.
    specialize (H di ltac:(lia)). rewrite scan_row_None in H.
    destruct (decide ((di, dj) ∈ moves_made self)) as [| Hn]; [done |].
    destruct (H dj ltac:(lia)). done.
  - intros H i Hi. apply scan_row_None. intros j Hj [H1 H2]. apply H1.
    apply H; [split; simpl; lia | done].
Qed.

Lemma elem_of_possible_moves self c :
  c ∈ possible_moves self
  ↔ on_board self c ∧ (c ∉ moves_made self) ∧ (c ∉ mines self).
Proof.
  destruct c as [x y]. unfold possible_moves, on_board. simpl.
  rewrite list_elem_of_bind. split.
  - intros (x' & Hin & Hx). apply elem_of_range in Hx.
    apply list_elem_of_bind in Hin as (y' & Hin & Hy). apply elem_of_range in Hy.
    destruct (bool_decide ((x', y') ∉ moves_made self)) eqn:E1;
      destruct (bool_decide ((x', y') ∉ mines self)) eqn:E2;
      simpl in Hin; try (by apply not_elem_of_nil in Hin).
    apply list_elem_of_singleton in Hin as [= -> ->].
    apply bool_decide_eq_true in E1. apply bool_decide_eq_true in E2.
    split_and!; [lia | lia | lia | lia | done | done].
  - intros ([Hx Hy] & Hm & Hs). exists x. split; [| apply elem_of_range; lia].
    apply list_elem_of_bind. exists y. split; [| apply elem_of_range; lia].
    rewrite !bool_decide_eq_true_2 by done. simpl. by apply list_elem_of_singleton.
Qed.

End move_facts.

(** C6: [make_safe_move] returns the first board cell, rows scanned
    outermost, that is in [safes] and not in [moves_made]; it returns [None]
    exactly when no board cell qualifies; the engine is left as it was.  When
    [safes] and [moves_made] are both the single cell (1,1) the result is
    [None]. *)
Theorem make_safe_move_first_in_row_major (self : MinesweeperAI.t) :
  (MinesweeperAI.make_safe_move self).2 = self
  ∧ (∀ c : Cell,
        (MinesweeperAI.make_safe_move self).1 = Some c
        ↔ on_board self c ∧ c ∈ MinesweeperAI.safes self ∧ (c ∉ MinesweeperAI.moves_made self)
          ∧ ∀ d : Cell, on_board self d → d ∈ MinesweeperAI.safes self →
                        d ∉ MinesweeperAI.moves_made self → ¬ row_major_lt d c)
  ∧ ((MinesweeperAI.make_safe_move self).1 = None
     ↔ ∀ d : Cell, on_board self d → d ∈ MinesweeperAI.safes self →
                   d ∈ MinesweeperAI.moves_made self)
  ∧ (MinesweeperAI.safes self = {[(1, 1)%Z]} →
     MinesweeperAI.moves_made self = {[(1, 1)%Z]} →
     (MinesweeperAI.make_safe_move self).1 = None).
Proof.
  split_and!.
  - done.
  - apply make_safe_move_Some.
  - apply make_safe_move_None.
  - intros Hs Hm. apply make_safe_move_None. intros d _. rewrite Hs, Hm. done.
Qed.

(** C7: [make_random_move] returns [None] exactly when every board cell is
    in [moves_made] or in [mines]; otherwise it returns a board cell that is
    in neither set, and every such cell is returned for some draw of the
    generator.  Both outcomes are ordinary return values, and the engine is
    left as it was. *)
Theorem make_random_move_outcome (self : MinesweeperAI.t) (draw : nat) :
  (MinesweeperAI.make_random_move self draw).2 = self
  ∧ ((MinesweeperAI.make_random_move self draw).1 = None
     ↔ ∀ c : Cell, on_board self c →
                   c ∈ MinesweeperAI.moves_made self ∨ c ∈ MinesweeperAI.mines self)
  ∧ (∀ c : Cell,
        (MinesweeperAI.make_random_move self draw).1 = Some c →
        on_board self c ∧ (c ∉ MinesweeperAI.moves_made self) ∧ (c ∉ MinesweeperAI.mines self))
  ∧ (∀ c : Cell,
        on_board self c → c ∉ MinesweeperAI.moves_made self → c ∉ MinesweeperAI.mines self →
        ∃ draw' : nat, (MinesweeperAI.make_random_move self draw').1 = Some c).
Proof.
  unfold MinesweeperAI.make_random_move. simpl. split_and!.
  - done.
  - case_bool_decide as Hne.
    + assert (0 < length (MinesweeperAI.possible_moves self)) as Hlen
        by (destruct (MinesweeperAI.possible_moves self); [done | simpl; lia]).
      destruct (lookup_lt_is_Some_2 (MinesweeperAI.possible_moves self)
                  (draw mod length (MinesweeperAI.possible_moves self)))
        as [c Hc]; [apply Nat.mod_upper_bound; lia |].
      rewrite Hc. split; [done |]. intros H.
      assert (c ∈ MinesweeperAI.possible_moves self) as Hin
        by (apply list_elem_of_lookup; eauto).
      apply elem_of_possible_moves in Hin as (Hb & Hm & Hs).
      destruct (H c Hb); done.
    + split; [| done]. intros _ c Hb.
      destruct (decide (c ∈ MinesweeperAI.moves_made self)) as [| Hm]; [by left |].
      destruct (decide (c ∈ MinesweeperAI.mines self)) as [| Hs]; [by right |].
      assert (c ∈ MinesweeperAI.possible_moves self) as Hin
        by (by apply elem_of_possible_moves).
      assert (MinesweeperAI.possible_moves self = []) as E
        by (destruct (decide (MinesweeperAI.possible_moves self = [])); [done | by destruct Hne]).
      rewrite E in Hin. by apply not_elem_of_nil in Hin.
  - intros c. case_bool_decide; [| done]. intros Hc.
    apply elem_of_possible_moves. apply list_elem_of_lookup. eauto.
  - intros c Hb Hm Hs.
    assert (c ∈ MinesweeperAI.possible_moves self) as Hin by (by apply elem_of_possible_moves).
    apply list_elem_of_lookup in Hin as [k Hk]. exists k.
    pose proof (lookup_lt_Some _ _ _ Hk) as Hlt.
    rewrite bool_decide_eq_true_2 by (intros E; rewrite E in Hk; done).
    by rewrite Nat.mod_small.
Qed.

(** ** Subset resolution (step 5) *)

Section subset_resolution_facts.
Import MinesweeperAI.
Implicit Types (kb nk : list Sentence.t) (s : Sentence.t).

Lemma foldl_inv {X Y : Type} (P : X → Prop) (f : X → Y → X) (l : list Y) (a : X) :
  P a → (∀ a x, x ∈ l → P a → P (f a x)) → P (foldl f a l).
Proof.
  revert a. induction l as [| y l IH]; intros a Ha H; simpl; [done |].
  apply IH; [apply H; [left | done] |]. intros b x Hx. apply H. by right.
Qed.

Lemma foldl_cons_eq {X Y : Type} (f : X → Y → X) (a : X) (y : Y) (l : list Y) :
  foldl f a (y :: l) = foldl f (f a y) l.
Proof. reflexivity. Qed.

Lemma derive_eq kb nk s1 s2 :
  derive kb nk s1 s2
  = if decide (s1 ≠ s2 ∧ Sentence.cells s1 ⊆ Sentence.cells s2
               ∧ (subtract s2 s1 ∉ kb) ∧ (subtract s2 s1 ∉ nk))
    then nk ++ [subtract s2 s1] else nk.
Proof.
  unfold derive, Sentence.init. fold (subtract s2 s1).
  destruct (Sentence.eqb s1 s2) eqn:E; simpl.
  { apply sentence_eqb_eq in E. case_decide; [naive_solver | done]. }
  assert (s1 ≠ s2) by (intros ->; by rewrite (proj2 (sentence_eqb_eq s2 s2)) in E).
  case_bool_decide; [| case_decide; [naive_solver | done]].
  destruct (Sentence.contains (subtract s2 s1) kb) eqn:E1; simpl.
  { apply sentence_contains_elem in E1. case_decide; [naive_solver | done]. }
  destruct (Sentence.contains (subtract s2 s1) nk) eqn:E2; simpl.
  { apply sentence_contains_elem in E2. case_decide; [naive_solver | done]. }
  assert (subtract s2 s1 ∉ kb) by (rewrite <- sentence_contains_elem; congruence).
  assert (subtract s2 s1 ∉ nk) by (rewrite <- sentence_contains_elem; congruence).
  case_decide; [done | naive_solver].
Qed.

Lemma inner_loop_spec kb s1 (l2 : list Sentence.t) nk :
  let nk' := foldl (λ nk s2, derive kb nk s1 s2) nk l2 in
  nk `prefix_of` nk'
  ∧ (NoDup nk → NoDup nk')
  ∧ (∀ d, d ∈ nk' → d ∈ nk
          ∨ ((d ∉ kb) ∧ ∃ s2, s2 ∈ l2 ∧ s1 ≠ s2
                            ∧ Sentence.cells s1 ⊆ Sentence.cells s2 ∧ d = subtract s2 s1))
  ∧ (∀ s2, s2 ∈ l2 → s1 ≠ s2 → Sentence.cells s1 ⊆ Sentence.cells s2 →
           subtract s2 s1 ∈ kb ∨ subtract s2 s1 ∈ nk').
Proof.
  revert nk. induction l2 as [| x l2 IH]; intros nk; simpl.
  { split_and!; [done | done | by left |]. intros s2 Hs2. by apply not_elem_of_nil in Hs2. }
  destruct (IH (derive kb nk s1 x)) as (P1 & P2 & P3 & P4).
  assert (nk `prefix_of` derive kb nk s1 x) as Q1.
  { rewrite derive_eq. case_decide; [by apply prefix_app_r | done]. }
  split_and!.
  - by etrans.
  - intros Hnd. apply P2. rewrite derive_eq. case_decide as Hc; [| done].
    apply NoDup_app. split_and!; [done | | apply NoDup_singleton].
    intros y Hy Hy'. apply list_elem_of_singleton in Hy' as ->. naive_solver.
  - intros d Hd. destruct (P3 d Hd) as [Hin | (Hk & s2 & Hs2 & Hrest)].
    + rewrite derive_eq in Hin. case_decide as Hc; [| by left].
      apply elem_of_app in Hin as [Hin | Hin]; [by left |].
      apply list_elem_of_singleton in Hin as ->. right. split; [naive_solver |].
      exists x. split; [left | naive_solver].
    + right. split; [done |]. exists s2. split; [by right | done].
  - intros s2 Hs2 Hne Hsub. apply elem_of_cons in Hs2 as [-> | Hs2]; [| by apply P4].
    destruct (decide (subtract x s1 ∈ kb)) as [| Hk]; [by left |]. right.
    eapply elem_of_prefix; [| exact P1]. rewrite derive_eq.
    case_decide as Hc; [apply elem_of_app; right; by apply list_elem_of_singleton |].
    destruct (decide (subtract x s1 ∈ nk)); [done | naive_solver].
Qed.

Lemma outer_loop_spec kb (l1 l2 : list Sentence.t) nk :
  let nk' := foldl (λ nk s1, foldl (λ nk s2, derive kb nk s1 s2) nk l2) nk l1 in
  nk `prefix_of` nk'
  ∧ (NoDup nk → NoDup nk')
  ∧ (∀ d, d ∈ nk' → d ∈ nk
          ∨ ((d ∉ kb) ∧ ∃ s1 s2, s1 ∈ l1 ∧ s2 ∈ l2 ∧ s1 ≠ s2
                               ∧ Sentence.cells s1 ⊆ Sentence.cells s2 ∧ d = subtract s2 s1))
  ∧ (∀ s1 s2, s1 ∈ l1 → s2 ∈ l2 → s1 ≠ s2 → Sentence.cells s1 ⊆ Sentence.cells s2 →
              subtract s2 s1 ∈ kb ∨ subtract s2 s1 ∈ nk').
Proof.
  revert nk. induction l1 as [| x l1 IH]; intros nk; simpl.
  { split_and!; [done | done | by left |]. intros s1 s2 Hs1. by apply not_elem_of_nil in Hs1. }
  destruct (inner_loop_spec kb x l2 nk) as (I1 & I2 & I3 & I4).
  destruct (IH (foldl (λ nk s2, derive kb nk x s2) nk l2)) as (P1 & P2 & P3 & P4).
  split_and!.
  - by etrans.
  - auto.
  - intros d Hd. destruct (P3 d Hd) as [Hin | (Hk & s1 & s2 & Hs1 & Hrest)].
    + destruct (I3 d Hin) as [| (Hk & s2 & Hrest)]; [by left |]. right. split; [done |].
      exists x, s2. split; [left | done].
    + right. split; [done |]. exists s1, s2. split; [by right | done].
  - intros s1 s2 Hs1 Hs2 Hne Hsub. apply elem_of_cons in Hs1 as [-> | Hs1]; [| by apply P4].
    destruct (I4 s2 Hs2 Hne Hsub) as [| Hin]; [by left |]. right.
    eapply elem_of_prefix; [exact Hin | exact P1].
Qed.

Lemma subset_resolution_spec kb :
  NoDup (subset_resolution kb)
  ∧ (∀ d, d ∈ subset_resolution kb →
          (d ∉ kb) ∧ ∃ s1 s2, s1 ∈ kb ∧ s2 ∈ kb ∧ s1 ≠ s2
                            ∧ Sentence.cells s1 ⊆ Sentence.cells s2 ∧ d = subtract s2 s1)
  ∧ (∀ s1 s2, s1 ∈ kb → s2 ∈ kb → s1 ≠ s2 → Sentence.cells s1 ⊆ Sentence.cells s2 →
              subtract s2 s1 ∈ kb ∨ subtract s2 s1 ∈ subset_resolution kb).
Proof.
  destruct (outer_loop_spec kb kb kb []) as (_ & P2 & P3 & P4).
  split_and!; [apply P2, NoDup_nil_2 | | exact P4].
  intros d Hd. destruct (P3 d Hd) as [Hin | H]; [by apply not_elem_of_nil in Hin | done].
Qed.


End subset_resolution_facts.

(** ** Two sentences at the front of the knowledge base *)

Section front_kept_facts.
Import MinesweeperAI.
Variables (sA sB : Sentence.t) (X : gset Cell) (C : Cell).
Hypothesis HsA : Sentence.cells sA ⊆ X.
Hypothesis HsB : Sentence.cells sB ⊆ X.
Hypothesis HC : C ∈ X.



Hypothesis HA0 : Sentence.count sA ≠ 0%Z.
Hypothesis HA1 : Sentence.count sA ≠ Sentence.len_cells sA.
Hypothesis HB0 : Sentence.count sB ≠ 0%Z.
Hypothesis HB1 : Sentence.count sB ≠ Sentence.len_cells sB.



End front_kept_facts.

(** ** The scenario [{A,B} = 1], [{A,B,C} = 2] *)

Section scenario.
Import MinesweeperAI.
Variables (A B C : Cell).
Hypothesis HAB : A ≠ B.
Hypothesis HAC : A ≠ C.
Hypothesis HBC : B ≠ C.

Local Abbreviation sAB := (Sentence.Build {[A; B]} 1).
Local Abbreviation sABC := (Sentence.Build {[A; B; C]} 2).
Local Abbreviation sC := (Sentence.Build {[C]} 1).
Local Abbreviation ABC := ({[A; B; C]} : gset Cell).













Lemma chebyshev_self (c : Cell) : chebyshev c c = 0%Z.
Proof. unfold chebyshev. lia. Qed.


End scenario.

(** Each call of a concrete play is checked by evaluation. *)
Ltac check_truthful :=
  repeat (cbn [truthful_run]; split; [vm_compute; try exact I; try (split; congruence); congruence |]);
  exact I.




(** ** Soundness of the engine under truthful play *)

Section soundness.
Import MinesweeperAI.
Variable M : gset Cell.
Implicit Types (s : Sentence.t) (c cell : Cell) (self : MinesweeperAI.t).

Lemma holds_mark_mine s c : c ∈ M → holds M s → holds M (Sentence.mark_mine s c).
Proof.
  intros Hc Hs. unfold Sentence.mark_mine. case_bool_decide as Hin; [| done].
  unfold holds in *. cbn [Sentence.cells Sentence.count]. rewrite Hs.
  assert ((Sentence.cells s ∖ {[c]}) ∩ M = (Sentence.cells s ∩ M) ∖ {[c]}) as -> by set_solver.
  pose proof (size_difference (Sentence.cells s ∩ M) {[c]}) as Hd.
  rewrite size_singleton in Hd.
  assert (size (Sentence.cells s ∩ M) ≠ 0).
  { apply size_non_empty_iff. intros E. set_solver. }
  rewrite Hd by set_solver. lia.
Qed.

Lemma holds_mark_safe s c : c ∉ M → holds M s → holds M (Sentence.mark_safe s c).
Proof.
  intros Hc Hs. unfold Sentence.mark_safe. case_bool_decide as Hin; [| done].
  unfold holds in *. cbn [Sentence.cells Sentence.count]. rewrite Hs.
  assert ((Sentence.cells s ∖ {[c]}) ∩ M = Sentence.cells s ∩ M) as -> by set_solver. done.
Qed.

Lemma holds_count_in_range s : holds M s → count_in_range s.
Proof.
  unfold holds, count_in_range, Sentence.len_cells. intros ->.
  assert (size (Sentence.cells s ∩ M) ≤ size (Sentence.cells s))
    by (apply subseteq_size; set_solver).
  lia.
Qed.

Lemma holds_known_mines s : holds M s → (Sentence.known_mines s).1 ⊆ M.
Proof.
  intros Hs. unfold Sentence.known_mines. case_bool_decide as E; simpl; [| set_solver].
  unfold holds, Sentence.len_cells in *.
  assert (Sentence.cells s ∩ M = Sentence.cells s) as Heq.
  { apply set_subseteq_size_eq; [set_solver | lia]. }
  set_solver.
Qed.

Lemma holds_known_safes s : holds M s → (Sentence.known_safes s).1 ## M.
Proof.
  intros Hs. unfold Sentence.known_safes. case_bool_decide as E; simpl; [| set_solver].
  unfold holds in *.
  assert (Sentence.cells s ∩ M = ∅) as Heq.
  { apply leibniz_equiv, size_empty_inv. lia. }
  set_solver.
Qed.

Lemma holds_subtract s1 s2 :
  holds M s1 → holds M s2 → Sentence.cells s1 ⊆ Sentence.cells s2 → holds M (subtract s2 s1).
Proof.
  unfold holds, subtract. cbn [Sentence.cells Sentence.count]. intros H1 H2 Hsub. rewrite H1, H2.
  assert ((Sentence.cells s2 ∖ Sentence.cells s1) ∩ M
          = (Sentence.cells s2 ∩ M) ∖ (Sentence.cells s1 ∩ M)) as -> by set_solver.
  rewrite (size_difference (Sentence.cells s2 ∩ M) (Sentence.cells s1 ∩ M)) by set_solver.
  assert (size (Sentence.cells s1 ∩ M) ≤ size (Sentence.cells s2 ∩ M))
    by (apply subseteq_size; set_solver).
  lia.
Qed.

Lemma sound_mark_mine self c : c ∈ M → sound M self → sound M (mark_mine self c).
Proof.
  intros Hc (H1 & H2 & H3). split_and!; simpl; [set_solver | done |].
  apply Forall_fmap. eapply Forall_impl; [exact H3 |]. intros s. by apply holds_mark_mine.
Qed.

Lemma sound_mark_safe self c : c ∉ M → sound M self → sound M (mark_safe self c).
Proof.
  intros Hc (H1 & H2 & H3). split_and!; simpl; [done | set_solver |].
  apply Forall_fmap. eapply Forall_impl; [exact H3 |]. intros s. by apply holds_mark_safe.
Qed.

Lemma sound_for_each_mark_mine (X : gset Cell) self :
  X ⊆ M → sound M self → sound M (for_each mark_mine X self).
Proof.
  intros HX Hs. unfold for_each. apply (foldl_inv (sound M)); [done |].
  intros a x Hx Ha. apply sound_mark_mine; [| done]. apply elem_of_elements in Hx. set_solver.
Qed.

Lemma sound_for_each_mark_safe (X : gset Cell) self :
  X ## M → sound M self → sound M (for_each mark_safe X self).
Proof.
  intros HX Hs. unfold for_each. apply (foldl_inv (sound M)); [done |].
  intros a x Hx Ha. apply sound_mark_safe; [| done]. apply elem_of_elements in Hx. set_solver.
Qed.

Lemma sound_resolve_sentence i self : sound M self → sound M (resolve_sentence i self).
Proof.
  intros Hs. destruct (knowledge self !! i) as [s |] eqn:Hi;
    [| unfold resolve_sentence; by rewrite Hi].
  rewrite (resolve_sentence_eq _ _ _ Hi). simpl.
  assert (holds M s) as Hh.
  { destruct Hs as (_ & _ & H3). eapply Forall_lookup_1; [exact H3 | exact Hi]. }
  assert (sound M (if bool_decide ((Sentence.known_mines s).1 ≠ ∅)
                   then for_each mark_mine (Sentence.known_mines s).1 self else self)) as Hmid.
  { case_bool_decide; [| done]. apply sound_for_each_mark_mine; [| done].
    by apply holds_known_mines. }
  revert Hmid.
  generalize (if bool_decide ((Sentence.known_mines s).1 ≠ ∅)
              then for_each mark_mine (Sentence.known_mines s).1 self else self).
  intros mid Hmid. case_bool_decide; [| done].
  apply sound_for_each_mark_safe; [| done]. by apply holds_known_safes.
Qed.

Lemma sound_direct_resolution self : sound M self → sound M (direct_resolution self).
Proof.
  intros Hs. unfold direct_resolution. apply (foldl_inv (sound M)); [done |].
  intros a i _. apply sound_resolve_sentence.
Qed.

Lemma holds_subset_resolution (kb : list Sentence.t) :
  Forall (holds M) kb → Forall (holds M) (subset_resolution kb).
Proof.
  intros Hkb. rewrite Forall_forall in Hkb. apply Forall_forall. intros d Hd.
  destruct (subset_resolution_spec kb) as (_ & P & _).
  destruct (P d Hd) as (_ & s1 & s2 & H1 & H2 & _ & Hsub & ->).
  apply holds_subtract; auto.
Qed.

Lemma sound_resolve_neighbor cell s self c :
  holds M s → c ∈ Sentence.cells s → sound M self → sound M (resolve_neighbor cell s self c).
Proof.
  intros Hh Hc Hs. unfold resolve_neighbor.
  case_bool_decide; [| done].
  destruct (bool_decide (c ∉ mines self) && bool_decide (c ∉ safes self)); [| done].
  case_bool_decide as E0.
  - apply sound_mark_safe; [| done].
    pose proof (holds_known_safes s Hh) as Hks. unfold Sentence.known_safes in Hks.
    rewrite bool_decide_eq_true_2 in Hks by done. simpl in Hks. set_solver.
  - case_bool_decide as E1; [| done]. apply sound_mark_mine; [| done].
    pose proof (holds_known_mines s Hh) as Hkm. unfold Sentence.known_mines in Hkm.
    rewrite bool_decide_eq_true_2 in Hkm by done. simpl in Hkm. set_solver.
Qed.

Lemma sound_resolve_derived cell (nk : list Sentence.t) self :
  Forall (holds M) nk → sound M self → sound M (resolve_derived cell nk self).
Proof.
  intros Hnk Hs. unfold resolve_derived. apply (foldl_inv (sound M)); [done |].
  intros a s Hin Ha. rewrite Forall_forall in Hnk. unfold for_each.
  apply (foldl_inv (sound M)); [done |].
  intros b c Hc Hb. apply sound_resolve_neighbor; [by apply Hnk | | done].
  by apply elem_of_elements in Hc.
Qed.

Lemma sound_infer self cell : sound M self → sound M (infer self cell).
Proof.
  intros Hs. unfold infer.
  pose proof (sound_direct_resolution self Hs) as H4.
  set (st := direct_resolution self) in *.
  assert (Forall (holds M) (subset_resolution (knowledge st))) as H5
    by (apply holds_subset_resolution; apply H4).
  pose proof (sound_resolve_derived cell _ st H5 H4) as (H61 & H62 & H63).
  split_and!; simpl; [done | done |]. by apply Forall_app.
Qed.

Lemma sound_observe self cell n :
  cell ∉ M → n = Z.of_nat (size (around self cell ∩ M)) →
  sound M self → sound M (observe self cell n).
Proof.
  intros Hc Hn Hs.
  assert (sound M (set_moves_made ({[cell]} ∪ moves_made self) self)) as Hs1
    by (destruct Hs as (H1 & H2 & H3); by split_and!).
  pose proof (sound_mark_safe _ cell Hc Hs1) as Hs2. unfold observe.
  set (st := mark_safe (set_moves_made ({[cell]} ∪ moves_made self) self) cell) in *.
  destruct Hs2 as (H1 & H2 & H3). split_and!; simpl; [done | done |].
  apply Forall_app. split; [done |]. apply Forall_singleton.
  unfold holds, Sentence.init. cbn [Sentence.cells Sentence.count]. rewrite Hn. do 2 f_equal.
  unfold around. apply set_eq. intros c.
  rewrite !elem_of_intersection, !elem_of_list_to_set, !elem_of_neighbors.
  unfold on_board. simpl. set_solver.
Qed.

Lemma sound_step self o : truthful M self o → sound M self → sound M (step self o).
Proof.
  destruct o as [c | c | c n | | d]; simpl.
  - apply sound_mark_mine.
  - apply sound_mark_safe.
  - intros [Hc Hn] Hs. apply sound_infer. by apply sound_observe.
  - done.
  - done.
Qed.

Lemma sound_run self ops : truthful_run M self ops → sound M self → sound M (run self ops).
Proof.
  revert self. induction ops as [| o ops IH]; intros self; simpl; [done |].
  intros [Ho Hops] Hs. apply IH; [done |]. by apply sound_step.
Qed.

Lemma sound_init h w : sound M (init h w).
Proof. split_and!; simpl; [set_solver | set_solver | apply Forall_nil_2]. Qed.

End soundness.

(** ** Disjointness of [mines] and [safes] *)

(** Counterexample to C2 as stated: the public calls [mark_mine((0,0))] and
    [mark_safe((0,0))] on a fresh engine leave (0,0) in both sets. *)
Lemma mines_safes_overlap :
  ¬ (MinesweeperAI.mines (run (MinesweeperAI.init 8 8) contradictory_marks)
     ## MinesweeperAI.safes (run (MinesweeperAI.init 8 8) contradictory_marks)).
Proof.
  intros H. apply (H (0, 0)%Z); vm_compute; reflexivity.
Qed.

(** C2, amended: in every state reached from a fresh engine by calls that
    are truthful for one fixed mine placement [M] ([mark_mine] only on cells
    of [M], [mark_safe] only on cells outside [M], [add_knowledge(cell, n)]
    only with [cell] outside [M] and [n] the number of cells of [M] around
    [cell] on the board), [mines] and [safes] are disjoint: [mines] is
    included in [M] and [safes] does not meet [M]. *)
Theorem mines_safes_disjoint_when_truthful (M : gset Cell) (h w : Z) (ops : list op) :
  truthful_run M (MinesweeperAI.init h w) ops →
  MinesweeperAI.mines (run (MinesweeperAI.init h w) ops)
  ## MinesweeperAI.safes (run (MinesweeperAI.init h w) ops).
Proof.
  intros Ht. destruct (sound_run M _ ops Ht (sound_init M h w)) as (H1 & H2 & _).
  set_solver.
Qed.

Lemma mines_safes_disjoint_when_truthful_witness :
  MinesweeperAI.mines (run (MinesweeperAI.init 3 3) example_play)
  ## MinesweeperAI.safes (run (MinesweeperAI.init 3 3) example_play).
Proof.
  apply (mines_safes_disjoint_when_truthful example_mines 3 3 example_play).
  unfold example_play. check_truthful.
Defined.

(** ** The count invariant of sentences *)

(** Counterexample to C3 as stated: after [add_knowledge((0,0), 2)] on a
    fresh 8 by 8 engine the knowledge base holds one sentence, with three
    cells and count 2, within the range; the calls [mark_safe((0,1))] and
    [mark_safe((1,0))] then leave it with one cell and count 2. *)
Lemma count_invariant_broken :
  Forall count_in_range
    (MinesweeperAI.knowledge (run (MinesweeperAI.init 8 8) (take 1 contradictory_play)))
  ∧ ¬ Forall count_in_range
        (MinesweeperAI.knowledge (run (MinesweeperAI.init 8 8) contradictory_play)).
Proof. split; compute_done. Qed.

Lemma size_remove_cell (X : gset Cell) (c : Cell) :
  c ∈ X → size (X ∖ {[c]}) = size X - 1 ∧ size X ≠ 0.
Proof.
  intros Hc. pose proof (size_difference X {[c]}) as Hd. rewrite size_singleton in Hd.
  split; [apply Hd; set_solver |]. apply size_non_empty_iff. intros E. set_solver.
Qed.

Lemma count_in_range_mark_mine (s : Sentence.t) (c : Cell) :
  count_in_range s → c ∉ Sentence.cells s ∨ (1 ≤ Sentence.count s)%Z →
  count_in_range (Sentence.mark_mine s c).
Proof.
  intros Hr Hc. unfold Sentence.mark_mine. case_bool_decide as Hin; [| done].
  destruct Hc as [Hc | Hc]; [done |].
  unfold count_in_range, Sentence.len_cells in *. cbn [Sentence.cells Sentence.count].
  destruct (size_remove_cell _ _ Hin) as [-> Hne]. lia.
Qed.

Lemma count_in_range_mark_safe (s : Sentence.t) (c : Cell) :
  count_in_range s → c ∉ Sentence.cells s ∨ (Sentence.count s < Sentence.len_cells s)%Z →
  count_in_range (Sentence.mark_safe s c).
Proof.
  intros Hr Hc. unfold Sentence.mark_safe. case_bool_decide as Hin; [| done].
  destruct Hc as [Hc | Hc]; [done |].
  unfold count_in_range, Sentence.len_cells in *. cbn [Sentence.cells Sentence.count].
  destruct (size_remove_cell _ _ Hin) as [-> Hne]. lia.
Qed.

(** C3, amended: in every state reached from a fresh engine by calls that
    are truthful for one fixed mine placement, every sentence of the
    knowledge base has [0 <= count <= len(cells)].  For a single sentence
    within that range, [mark_mine(c)] keeps it there when [c] is not one of its
    cells or its count is at least 1, and [mark_safe(c)] keeps it there when
    [c] is not one of its cells or its count is below the number of its
    cells. *)
Theorem count_in_range_when_truthful :
  (∀ (M : gset Cell) (h w : Z) (ops : list op),
      truthful_run M (MinesweeperAI.init h w) ops →
      Forall count_in_range (MinesweeperAI.knowledge (run (MinesweeperAI.init h w) ops)))
  ∧ (∀ (s : Sentence.t) (c : Cell),
        count_in_range s → c ∉ Sentence.cells s ∨ (1 ≤ Sentence.count s)%Z →
        count_in_range (Sentence.mark_mine s c))
  ∧ (∀ (s : Sentence.t) (c : Cell),
        count_in_range s → c ∉ Sentence.cells s ∨ (Sentence.count s < Sentence.len_cells s)%Z →
        count_in_range (Sentence.mark_safe s c)).
Proof.
  split_and!.
  - intros M h w ops Ht.
    destruct (sound_run M _ ops Ht (sound_init M h w)) as (_ & _ & H3).
    eapply Forall_impl; [exact H3 |]. apply holds_count_in_range.
  - apply count_in_range_mark_mine.
  - apply count_in_range_mark_safe.
Qed.

Lemma count_in_range_when_truthful_witness :
  Forall count_in_range (MinesweeperAI.knowledge (run (MinesweeperAI.init 3 3) example_play)).
Proof.
  apply (proj1 count_in_range_when_truthful example_mines 3%Z 3%Z example_play).
  unfold example_play. check_truthful.
Defined.

(** ** Loops over a set do not depend on the enumeration order *)

Section set_loops.
Import MinesweeperAI.
Implicit Types (self : MinesweeperAI.t) (s : Sentence.t) (c : Cell).

Lemma sentence_mark_safe_count s c :
  Sentence.count (Sentence.mark_safe s c) = Sentence.count s.
Proof. unfold Sentence.mark_safe. by case_bool_decide. Qed.

Lemma sentence_mark_mine_count s c :
  Sentence.count (Sentence.mark_mine s c)
  = (Sentence.count s - Z.of_nat (size (Sentence.cells s ∩ {[c]})))%Z.
Proof.
  unfold Sentence.mark_mine. case_bool_decide as Hin; cbn [Sentence.count].
  - assert (Sentence.cells s ∩ {[c]} = {[c]}) as -> by set_solver.
    rewrite size_singleton. lia.
  - assert (Sentence.cells s ∩ {[c]} = ∅) as -> by set_solver.
    rewrite size_empty. lia.
Qed.

(** Marking the cells of a list safe, one after the other. *)
Lemma foldl_mark_safe (l : list Cell) self :
  foldl mark_safe self l
  = Build (height self) (width self) (moves_made self) (mines self)
          (list_to_set l ∪ safes self)
          ((λ s, Sentence.Build (Sentence.cells s ∖ list_to_set l) (Sentence.count s))
             <$> knowledge self).
Proof.
  revert self. induction l as [| x l IH]; intros self.
  - destruct self as [h w mv mi sa kb]. simpl. f_equal; [set_solver |].
    rewrite <- (list_fmap_id kb) at 1. apply list_fmap_ext.
    intros i [cs n] _. simpl. f_equal. set_solver.
  - rewrite foldl_cons_eq, IH. destruct self as [h w mv mi sa kb]. simpl.
    f_equal; [set_solver |].
    rewrite <- list_fmap_compose. apply list_fmap_ext. intros i s _. simpl.
    rewrite sentence_mark_safe_cells, sentence_mark_safe_count. f_equal. set_solver.
Qed.

(** Marking the cells of a duplicate-free list as mines. *)
Lemma foldl_mark_mine (l : list Cell) self :
  NoDup l →
  foldl mark_mine self l
  = Build (height self) (width self) (moves_made self)
          (list_to_set l ∪ mines self) (safes self)
          ((λ s, Sentence.Build
                   (Sentence.cells s ∖ list_to_set l)
                   (Sentence.count s - Z.of_nat (size (Sentence.cells s ∩ list_to_set l))))
             <$> knowledge self).
Proof.
  revert self. induction l as [| x l IH]; intros self Hnd.
  - destruct self as [h w mv mi sa kb]. simpl. f_equal; [set_solver |].
    rewrite <- (list_fmap_id kb) at 1. apply list_fmap_ext.
    intros i [cs n] _. simpl. f_equal; [set_solver |].
    assert (cs ∩ ∅ = (∅ : gset Cell)) as -> by set_solver. rewrite size_empty. lia.
  - apply NoDup_cons in Hnd as [Hx Hnd].
    rewrite foldl_cons_eq, (IH _ Hnd). destruct self as [h w mv mi sa kb]. simpl.
    f_equal; [set_solver |].
    rewrite <- list_fmap_compose. apply list_fmap_ext. intros i s _. simpl.
    rewrite sentence_mark_mine_cells, sentence_mark_mine_count. f_equal; [set_solver |].
    assert (Sentence.cells s ∩ ({[x]} ∪ list_to_set l)
            = (Sentence.cells s ∩ {[x]}) ∪ ((Sentence.cells s ∖ {[x]}) ∩ list_to_set l)) as ->.
    { assert (x ∉ (list_to_set l : gset Cell)) by (by rewrite elem_of_list_to_set).
      set_solver. }
    pose proof (size_union (Sentence.cells s ∩ {[x]})
                  ((Sentence.cells s ∖ {[x]}) ∩ list_to_set l)) as Hu.
    rewrite Hu by set_solver. lia.
Qed.

(** The two marking loops of step 4 in closed form: whatever order the set
    is enumerated in, the cells end up in the engine's set and leave every
    sentence. *)
Lemma for_each_mark_safe_eq (X : gset Cell) self :
  for_each mark_safe X self
  = Build (height self) (width self) (moves_made self) (mines self) (X ∪ safes self)
          ((λ s, Sentence.Build (Sentence.cells s ∖ X) (Sentence.count s)) <$> knowledge self).
Proof. unfold for_each. by rewrite foldl_mark_safe, list_to_set_elements_L. Qed.

Lemma for_each_mark_mine_eq (X : gset Cell) self :
  for_each mark_mine X self
  = Build (height self) (width self) (moves_made self) (X ∪ mines self) (safes self)
          ((λ s, Sentence.Build (Sentence.cells s ∖ X)
                   (Sentence.count s - Z.of_nat (size (Sentence.cells s ∩ X))))
             <$> knowledge self).
Proof.
  unfold for_each. rewrite foldl_mark_mine by apply NoDup_elements.
  by rewrite list_to_set_elements_L.
Qed.

(** The sweep of step 4 never resizes the list it walks. *)
Lemma resolve_sentence_length i self :
  length (knowledge (resolve_sentence i self)) = length (knowledge self).
Proof.
  destruct (knowledge self !! i) as [s |] eqn:Hi;
    [| unfold resolve_sentence; by rewrite Hi].
  rewrite (resolve_sentence_eq _ _ _ Hi). simpl.
  repeat case_bool_decide;
    rewrite ?for_each_mark_safe_eq, ?for_each_mark_mine_eq; simpl;
    rewrite ?length_fmap; done.
Qed.

Lemma direct_resolution_length self :
  length (knowledge (direct_resolution self)) = length (knowledge self).
Proof.
  unfold direct_resolution.
  apply (foldl_inv (λ st, length (knowledge st) = length (knowledge self))); [done |].
  intros a i _ Ha. by rewrite resolve_sentence_length.
Qed.

End set_loops.

(** ** The engine evaluated on small boards *)

(** On a 1 by 3 board, observing (0,0) with count 1 leaves (0,1) as the
    only candidate: it is marked as a mine at once and its sentence is
    emptied. *)
Example one_by_three_board :
  let ai := MinesweeperAI.add_knowledge (MinesweeperAI.init 1 3) (0, 0)%Z 1 in
  MinesweeperAI.mines ai = {[(0, 1)%Z]}
  ∧ MinesweeperAI.safes ai = {[(0, 0)%Z]}
  ∧ MinesweeperAI.knowledge ai = [Sentence.Build ∅ 0]
  ∧ (MinesweeperAI.make_safe_move ai).1 = None.
Proof. vm_compute. done. Qed.

(** A count of 0 makes every neighbour safe, and the first of them in
    row-major order is the next safe move. *)
Example zero_count_marks_neighbours_safe :
  let ai := MinesweeperAI.add_knowledge (MinesweeperAI.init 2 2) (0, 0)%Z 0 in
  MinesweeperAI.safes ai = {[(0, 0)%Z; (0, 1)%Z; (1, 0)%Z; (1, 1)%Z]}
  ∧ MinesweeperAI.mines ai = ∅
  ∧ (MinesweeperAI.make_safe_move ai).1 = Some (0, 1)%Z.
Proof. vm_compute. done. Qed.

(** The truthful game on the 3 by 3 board ends with exactly the mine of
    the board in [mines]. *)
Example example_play_finds_the_mine :
  MinesweeperAI.mines (run (MinesweeperAI.init 3 3) example_play) = example_mines.
Proof. vm_compute. done. Qed.

(** * Further properties of the engine *)

(** ** What truthful play guarantees *)

(** X1: whatever sequence of truthful calls a fresh engine receives, every
    cell in [mines] is a mine of the board, no cell in [safes] is, and every
    sentence of the knowledge base states the exact number of mines among its
    cells. *)
Theorem truthful_play_is_sound (M : gset Cell) (h w : Z) (ops : list op) :
  truthful_run M (MinesweeperAI.init h w) ops →
  MinesweeperAI.mines (run (MinesweeperAI.init h w) ops) ⊆ M
  ∧ MinesweeperAI.safes (run (MinesweeperAI.init h w) ops) ## M
  ∧ ∀ s : Sentence.t,
      s ∈ MinesweeperAI.knowledge (run (MinesweeperAI.init h w) ops) →
      Sentence.count s = Z.of_nat (size (Sentence.cells s ∩ M)).
Proof.
  intros Ht. destruct (sound_run M _ ops Ht (sound_init M h w)) as (H1 & H2 & H3).
  split_and!; [done | done |]. intros s Hs. rewrite Forall_forall in H3. by apply H3.
Qed.

Lemma truthful_play_is_sound_witness :
  MinesweeperAI.mines (run (MinesweeperAI.init 3 3) example_play) ⊆ example_mines
  ∧ MinesweeperAI.safes (run (MinesweeperAI.init 3 3) example_play) ## example_mines
  ∧ ∀ s : Sentence.t,
      s ∈ MinesweeperAI.knowledge (run (MinesweeperAI.init 3 3) example_play) →
      Sentence.count s = Z.of_nat (size (Sentence.cells s ∩ example_mines)).
Proof.
  apply (truthful_play_is_sound example_mines 3%Z 3%Z example_play).
  unfold example_play. check_truthful.
Defined.

(** X2: after truthful play, the cell that [make_safe_move] proposes is
    never a mine; it lies on the board and has not been played. *)
Theorem safe_move_is_not_a_mine (M : gset Cell) (h w : Z) (ops : list op) (c : Cell) :
  truthful_run M (MinesweeperAI.init h w) ops →
  (MinesweeperAI.make_safe_move (run (MinesweeperAI.init h w) ops)).1 = Some c →
  (c ∉ M)
  ∧ (c ∉ MinesweeperAI.moves_made (run (MinesweeperAI.init h w) ops))
  ∧ on_board (run (MinesweeperAI.init h w) ops) c.
Proof.
  intros Ht Hc. apply make_safe_move_Some in Hc as (Hb & Hs & Hm & _).
  destruct (sound_run M _ ops Ht (sound_init M h w)) as (_ & H2 & _).
  split_and!; [set_solver | done | done].
Qed.

Lemma safe_move_is_not_a_mine_witness :
  ((1, 1)%Z ∉ example_mines)
  ∧ ((1, 1)%Z ∉ MinesweeperAI.moves_made (run (MinesweeperAI.init 3 3) example_play))
  ∧ on_board (run (MinesweeperAI.init 3 3) example_play) (1, 1)%Z.
Proof.
  apply (safe_move_is_not_a_mine example_mines 3%Z 3%Z example_play (1, 1)%Z).
  - unfold example_play. check_truthful.
  - vm_compute. reflexivity.
Defined.

(** ** What the calls leave alone *)

Section frame_facts.
Import MinesweeperAI.
Implicit Types (self : MinesweeperAI.t) (c cell : Cell).

Lemma same_board_foldl {X : Type} (f : t → X → t) (l : list X) self :
  (∀ a x, height (f a x) = height a ∧ width (f a x) = width a
          ∧ moves_made (f a x) = moves_made a) →
  height (foldl f self l) = height self ∧ width (foldl f self l) = width self
  ∧ moves_made (foldl f self l) = moves_made self.
Proof.
  intros H.
  apply (foldl_inv (λ st, height st = height self ∧ width st = width self
                          ∧ moves_made st = moves_made self)); [done |].
  intros a x _ (E1 & E2 & E3). destruct (H a x) as (F1 & F2 & F3).
  split_and!; congruence.
Qed.

Lemma same_board_resolve_sentence i self :
  height (resolve_sentence i self) = height self
  ∧ width (resolve_sentence i self) = width self
  ∧ moves_made (resolve_sentence i self) = moves_made self.
Proof.
  destruct (knowledge self !! i) as [s |] eqn:Hi;
    [| unfold resolve_sentence; by rewrite Hi].
  rewrite (resolve_sentence_eq _ _ _ Hi). simpl.
  repeat case_bool_decide;
    rewrite ?for_each_mark_safe_eq, ?for_each_mark_mine_eq; simpl; done.
Qed.

Lemma same_board_resolve_neighbor cell (s : Sentence.t) self c :
  height (resolve_neighbor cell s self c) = height self
  ∧ width (resolve_neighbor cell s self c) = width self
  ∧ moves_made (resolve_neighbor cell s self c) = moves_made self.
Proof.
  unfold resolve_neighbor.
  repeat (case_bool_decide || destruct (_ && _)); done.
Qed.

Lemma same_board_infer self cell :
  height (infer self cell) = height self ∧ width (infer self cell) = width self
  ∧ moves_made (infer self cell) = moves_made self.
Proof.
  unfold infer. simpl.
  destruct (same_board_foldl (λ self i, resolve_sentence i self)
              (seq 0 (length (knowledge self))) self) as (A1 & A2 & A3).
  { intros a i. apply same_board_resolve_sentence. }
  fold (direct_resolution self) in A1, A2, A3.
  destruct (same_board_foldl
              (λ st sentence,
                 for_each (resolve_neighbor cell sentence) (Sentence.cells sentence) st)
              (subset_resolution (knowledge (direct_resolution self)))
              (direct_resolution self)) as (B1 & B2 & B3).
  { intros a s. unfold for_each. apply same_board_foldl.
    intros b c. apply same_board_resolve_neighbor. }
  fold (resolve_derived cell (subset_resolution (knowledge (direct_resolution self)))
          (direct_resolution self)) in B1, B2, B3.
  split_and!; congruence.
Qed.

Lemma same_board_step self o :
  height (step self o) = height self ∧ width (step self o) = width self
  ∧ moves_made (step self o) = moves_made self ∪ observed_cells [o].
Proof.
  destruct o as [c | c | c n | | d];
    try (simpl; split_and!; [done | done | unfold observed_cells; simpl; set_solver]).
  change (step self (AddKnowledge c n)) with (infer (observe self c n) c).
  destruct (same_board_infer (observe self c n) c) as (E1 & E2 & E3).
  rewrite E1, E2, E3. simpl. split_and!; [done | done |].
  unfold observed_cells. simpl. set_solver.
Qed.

End frame_facts.

(** X3: the board dimensions never change, and [moves_made] is exactly
    what it was plus the cells observed by the [add_knowledge] calls: no other
    operation adds a move, and every observed cell is also in [safes]. *)
Theorem moves_made_tracks_observations (self : MinesweeperAI.t) (ops : list op) :
  MinesweeperAI.height (run self ops) = MinesweeperAI.height self
  ∧ MinesweeperAI.width (run self ops) = MinesweeperAI.width self
  ∧ MinesweeperAI.moves_made (run self ops)
    = MinesweeperAI.moves_made self ∪ observed_cells ops
  ∧ observed_cells ops ⊆ MinesweeperAI.safes (run self ops).
Proof.
  revert self. induction ops as [| o ops IH]; intros self.
  - unfold observed_cells. simpl. split_and!; [done | done | set_solver | set_solver].
  - change (run self (o :: ops)) with (run (step self o) ops).
    destruct (IH (step self o)) as (E1 & E2 & E3 & E4).
    destruct (same_board_step self o) as (F1 & F2 & F3).
    assert (observed_cells (o :: ops) = observed_cells [o] ∪ observed_cells ops) as Hobs.
    { unfold observed_cells. destruct o; simpl; set_solver. }
    rewrite E1, E2, E3, F1, F2, F3, Hobs. split_and!; [done | done | set_solver |].
    apply union_least; [| done].
    assert (observed_cells [o] ⊆ MinesweeperAI.safes (step self o)) as Hs.
    { destruct o as [c | c | c n | | d].
      - change (observed_cells [MarkMine c]) with (∅ : gset Cell). apply empty_subseteq.
      - change (observed_cells [MarkSafe c]) with (∅ : gset Cell). apply empty_subseteq.
      - destruct (grows_infer (MinesweeperAI.observe self c n) c) as (_ & _ & _ & _ & G & _).
        change (step self (AddKnowledge c n))
          with (MinesweeperAI.infer (MinesweeperAI.observe self c n) c).
        etrans; [| exact G].
        change (observed_cells [AddKnowledge c n]) with ({[c]} ∪ ∅ : gset Cell).
        change (MinesweeperAI.safes (MinesweeperAI.observe self c n))
          with ({[c]} ∪ MinesweeperAI.safes self).
        apply union_least; [apply union_subseteq_l | apply empty_subseteq].
      - change (observed_cells [SafeMove]) with (∅ : gset Cell). apply empty_subseteq.
      - change (observed_cells [RandomMove d]) with (∅ : gset Cell). apply empty_subseteq. }
    destruct (grows_run (step self o) ops) as (_ & _ & _ & _ & G & _). set_solver.
Qed.

(** ** Marks in a different order *)

Section mark_order.
Import MinesweeperAI.
Implicit Types (self : MinesweeperAI.t) (s : Sentence.t) (a b c : Cell).

Lemma sentence_mark_mine_eq s c :
  Sentence.mark_mine s c
  = Sentence.Build (Sentence.cells s ∖ {[c]})
      (Sentence.count s - Z.of_nat (size (Sentence.cells s ∩ {[c]}))).
Proof.
  rewrite <- sentence_mark_mine_cells, <- sentence_mark_mine_count.
  by destruct (Sentence.mark_mine s c).
Qed.

Lemma sentence_mark_safe_eq s c :
  Sentence.mark_safe s c = Sentence.Build (Sentence.cells s ∖ {[c]}) (Sentence.count s).
Proof.
  rewrite <- sentence_mark_safe_cells, <- (sentence_mark_safe_count s c).
  by destruct (Sentence.mark_safe s c).
Qed.

Lemma sentence_mark_mine_comm s a b :
  Sentence.mark_mine (Sentence.mark_mine s a) b = Sentence.mark_mine (Sentence.mark_mine s b) a.
Proof.
  destruct (decide (a = b)) as [-> | Hne]; [done |].
  rewrite !sentence_mark_mine_eq. cbn [Sentence.cells Sentence.count]. f_equal; [set_solver |].
  assert ((Sentence.cells s ∖ {[a]}) ∩ {[b]} = Sentence.cells s ∩ {[b]}) as -> by set_solver.
  assert ((Sentence.cells s ∖ {[b]}) ∩ {[a]} = Sentence.cells s ∩ {[a]}) as -> by set_solver.
  lia.
Qed.

Lemma sentence_mark_safe_comm s a b :
  Sentence.mark_safe (Sentence.mark_safe s a) b = Sentence.mark_safe (Sentence.mark_safe s b) a.
Proof.
  rewrite !sentence_mark_safe_eq. cbn [Sentence.cells Sentence.count]. f_equal. set_solver.
Qed.

Lemma sentence_mark_mixed_comm s a b :
  a ≠ b →
  Sentence.mark_mine (Sentence.mark_safe s a) b = Sentence.mark_safe (Sentence.mark_mine s b) a.
Proof.
  intros Hne. rewrite !sentence_mark_mine_eq, !sentence_mark_safe_eq.
  cbn [Sentence.cells Sentence.count]. f_equal; [set_solver |].
  assert ((Sentence.cells s ∖ {[a]}) ∩ {[b]} = Sentence.cells s ∩ {[b]}) as -> by set_solver.
  done.
Qed.

Lemma mark_mine_comm self a b :
  mark_mine (mark_mine self a) b = mark_mine (mark_mine self b) a.
Proof.
  destruct self as [h w mv mi sa kb]. unfold mark_mine, set_mines, set_knowledge. simpl.
  f_equal; [set_solver |]. rewrite <- !list_fmap_compose. apply list_fmap_ext.
  intros i s _. simpl. apply sentence_mark_mine_comm.
Qed.

Lemma mark_safe_comm self a b :
  mark_safe (mark_safe self a) b = mark_safe (mark_safe self b) a.
Proof.
  destruct self as [h w mv mi sa kb]. unfold mark_safe, set_safes, set_knowledge. simpl.
  f_equal; [set_solver |]. rewrite <- !list_fmap_compose. apply list_fmap_ext.
  intros i s _. simpl. apply sentence_mark_safe_comm.
Qed.

Lemma mark_mixed_comm self a b :
  a ≠ b → mark_mine (mark_safe self a) b = mark_safe (mark_mine self b) a.
Proof.
  intros Hne. destruct self as [h w mv mi sa kb].
  unfold mark_mine, mark_safe, set_mines, set_safes, set_knowledge. simpl.
  f_equal. rewrite <- !list_fmap_compose. apply list_fmap_ext.
  intros i s _. simpl. by apply sentence_mark_mixed_comm.
Qed.

Lemma foldl_comm_permutation (f : t → Cell → t) (l1 l2 : list Cell) :
  (∀ self a b, f (f self a) b = f (f self b) a) →
  l1 ≡ₚ l2 → ∀ self, foldl f self l1 = foldl f self l2.
Proof.
  intros Hf Hp. induction Hp as [| x l1 l2 _ IH | x y l | l1 l2 l3 _ IH1 _ IH2]; intros self.
  - done.
  - simpl. apply IH.
  - simpl. by rewrite Hf.
  - by rewrite IH1.
Qed.

End mark_order.

(** X4: marks of different cells commute, whatever their kinds, and so do
    two marks of the same kind; hence marking the cells of a list, all as
    mines or all as safe, gives the same engine for every ordering of the
    list.  Only a cell marked both ways depends on the order: in a sentence
    that has the cell, safe-then-mine keeps the count and mine-then-safe
    decrements it. *)
Theorem marks_commute :
  (∀ (self : MinesweeperAI.t) (a b : Cell),
      MinesweeperAI.mark_mine (MinesweeperAI.mark_mine self a) b
      = MinesweeperAI.mark_mine (MinesweeperAI.mark_mine self b) a)
  ∧ (∀ (self : MinesweeperAI.t) (a b : Cell),
        MinesweeperAI.mark_safe (MinesweeperAI.mark_safe self a) b
        = MinesweeperAI.mark_safe (MinesweeperAI.mark_safe self b) a)
  ∧ (∀ (self : MinesweeperAI.t) (a b : Cell),
        a ≠ b →
        MinesweeperAI.mark_mine (MinesweeperAI.mark_safe self a) b
        = MinesweeperAI.mark_safe (MinesweeperAI.mark_mine self b) a)
  ∧ (∀ (self : MinesweeperAI.t) (l1 l2 : list Cell),
        l1 ≡ₚ l2 →
        foldl MinesweeperAI.mark_mine self l1 = foldl MinesweeperAI.mark_mine self l2
        ∧ foldl MinesweeperAI.mark_safe self l1 = foldl MinesweeperAI.mark_safe self l2)
  ∧ (∀ (s : Sentence.t) (c : Cell),
        c ∈ Sentence.cells s →
        Sentence.count (Sentence.mark_mine (Sentence.mark_safe s c) c) = Sentence.count s
        ∧ Sentence.count (Sentence.mark_safe (Sentence.mark_mine s c) c)
          = (Sentence.count s - 1)%Z).
Proof.
  split_and!.
  - apply mark_mine_comm.
  - apply mark_safe_comm.
  - apply mark_mixed_comm.
  - intros self l1 l2 Hp. split.
    + by apply (foldl_comm_permutation _ l1 l2 mark_mine_comm).
    + by apply (foldl_comm_permutation _ l1 l2 mark_safe_comm).
  - intros s c Hc. split.
    + rewrite sentence_mark_mine_notin by (rewrite sentence_mark_safe_cells; set_solver).
      apply sentence_mark_safe_count.
    + rewrite sentence_mark_safe_count, (sentence_mark_mine_in _ _ Hc). done.
Qed.

(** ** The first observation *)

Section first_observation.
Import MinesweeperAI.

Lemma neighbors_around (self : MinesweeperAI.t) (cell : Cell) :
  cell ∈ safes self → safes self ⊆ {[cell]} →
  list_to_set (neighbors self cell) = around self cell.
Proof.
  intros H1 H2. unfold around. apply set_eq. intros c.
  rewrite !elem_of_list_to_set, !elem_of_neighbors. unfold on_board. simpl.
  set_solver.
Qed.

Lemma subset_resolution_single (s : Sentence.t) : subset_resolution [s] = [].
Proof.
  unfold subset_resolution. cbn [foldl]. rewrite derive_eq.
  rewrite decide_False; [done | naive_solver].
Qed.

Lemma infer_single (self : MinesweeperAI.t) (s : Sentence.t) (cell : Cell) :
  knowledge self = [s] → infer self cell = resolve_sentence 0 self.
Proof.
  intros Hk. unfold infer, direct_resolution. rewrite Hk. cbn [length seq foldl].
  pose proof (resolve_sentence_length 0 self) as Hlen. rewrite Hk in Hlen.
  destruct (knowledge (resolve_sentence 0 self)) as [| s' [| s'' l]] eqn:Hk'; try done.
  rewrite subset_resolution_single. unfold resolve_derived. cbn [foldl app].
  destruct (resolve_sentence 0 self) as [h w mv mi sa kb]. simpl in *. by subst.
Qed.

Lemma known_sets_of (nb : gset Cell) (n : Z) :
  (Sentence.known_mines (Sentence.Build nb n)).1
  = (if decide (n = Z.of_nat (size nb)) then nb else ∅)
  ∧ (Sentence.known_safes (Sentence.Build nb n)).1 = (if decide (n = 0%Z) then nb else ∅).
Proof.
  unfold Sentence.known_mines, Sentence.known_safes, Sentence.len_cells.
  cbn [Sentence.cells Sentence.count].
  split; case_bool_decide; case_decide; done.
Qed.

Lemma not_empty_true (X : gset Cell) : X ≠ ∅ → bool_decide (X ≠ ∅) = true.
Proof. intros. by apply bool_decide_eq_true_2. Qed.

Lemma not_empty_false : bool_decide ((∅ : gset Cell) ≠ ∅) = false.
Proof. apply bool_decide_eq_false_2. intros H. by apply H. Qed.

(** The sweep of step 4 on a knowledge base of one sentence. *)
Lemma resolve_single (st : MinesweeperAI.t) (nb : gset Cell) (n : Z) :
  knowledge st = [Sentence.Build nb n] →
  moves_made (resolve_sentence 0 st) = moves_made st
  ∧ (n = 0%Z →
     safes (resolve_sentence 0 st) = nb ∪ safes st
     ∧ mines (resolve_sentence 0 st) = mines st
     ∧ knowledge (resolve_sentence 0 st) = [Sentence.Build ∅ 0])
  ∧ (n ≠ 0%Z → n = Z.of_nat (size nb) →
     safes (resolve_sentence 0 st) = safes st
     ∧ mines (resolve_sentence 0 st) = nb ∪ mines st
     ∧ knowledge (resolve_sentence 0 st) = [Sentence.Build ∅ 0])
  ∧ (n ≠ 0%Z → n ≠ Z.of_nat (size nb) → resolve_sentence 0 st = st).
Proof.
  intros Hk.
  assert (knowledge st !! 0 = Some (Sentence.Build nb n)) as H0 by (by rewrite Hk).
  split; [apply same_board_resolve_sentence |].
  rewrite (resolve_sentence_eq _ _ _ H0). cbn zeta.
  destruct (known_sets_of nb n) as [-> ->].
  assert (nb ∖ nb = ∅) as Hdiff by set_solver.
  assert (nb ∩ nb = nb) as Hint by set_solver.
  split_and!.
  - intros ->. rewrite (decide_True (P := 0%Z = 0%Z)) by done.
    destruct (decide (nb = ∅)) as [-> | Hnb].
    + rewrite size_empty. rewrite (decide_True (P := 0%Z = Z.of_nat 0)) by done.
      rewrite !not_empty_false. rewrite Hk.
      split_and!; [set_solver | done | done].
    + assert (size nb ≠ 0)
        by (apply size_non_empty_iff; intros E; apply Hnb; by apply leibniz_equiv).
      rewrite (decide_False (P := 0%Z = Z.of_nat (size nb))) by lia.
      rewrite not_empty_false, (not_empty_true nb Hnb), for_each_mark_safe_eq.
      cbn [safes mines knowledge]. rewrite Hk. cbn [fmap list_fmap Sentence.cells Sentence.count].
      rewrite Hdiff. done.
  - intros Hn0 Hn. rewrite (decide_True (P := n = Z.of_nat (size nb))) by done.
    rewrite (decide_False (P := n = 0%Z)) by done.
    assert (nb ≠ ∅) as Hnb by (intros ->; rewrite size_empty in Hn; lia).
    rewrite (not_empty_true nb Hnb), for_each_mark_mine_eq, not_empty_false.
    cbn [safes mines knowledge]. rewrite Hk. cbn [fmap list_fmap Sentence.cells Sentence.count].
    rewrite Hdiff, Hint. split_and!; [done | done |]. do 2 f_equal. lia.
  - intros Hn0 Hn. rewrite (decide_False (P := n = Z.of_nat (size nb))) by done.
    rewrite (decide_False (P := n = 0%Z)) by done. by rewrite !not_empty_false.
Qed.

End first_observation.

(** X5: the first observation on a fresh engine.  The observed cell becomes
    the only move.  With count 0 all the cells around it are marked safe; with
    a non-zero count equal to the number of cells around it they are all
    marked as mines; in both cases the observation sentence is left empty with
    count 0.  With any other count nothing is marked and the knowledge base is
    the single sentence pairing the cells around the cell with the count. *)
Theorem first_observation (h w : Z) (cell : Cell) (n : Z) :
  let ai := MinesweeperAI.add_knowledge (MinesweeperAI.init h w) cell n in
  let nb := around (MinesweeperAI.init h w) cell in
  MinesweeperAI.moves_made ai = {[cell]}
  ∧ (n = 0%Z →
     MinesweeperAI.safes ai = {[cell]} ∪ nb ∧ MinesweeperAI.mines ai = ∅
     ∧ MinesweeperAI.knowledge ai = [Sentence.Build ∅ 0])
  ∧ (n ≠ 0%Z → n = Z.of_nat (size nb) →
     MinesweeperAI.safes ai = {[cell]} ∧ MinesweeperAI.mines ai = nb
     ∧ MinesweeperAI.knowledge ai = [Sentence.Build ∅ 0])
  ∧ (n ≠ 0%Z → n ≠ Z.of_nat (size nb) →
     MinesweeperAI.safes ai = {[cell]} ∧ MinesweeperAI.mines ai = ∅
     ∧ MinesweeperAI.knowledge ai = [Sentence.Build nb n]).
Proof.
  intros ai nb.
  assert (MinesweeperAI.knowledge (MinesweeperAI.observe (MinesweeperAI.init h w) cell n)
          = [Sentence.Build nb n]) as Hk.
  { rewrite observe_knowledge. simpl. do 2 f_equal.
    rewrite neighbors_around; [done | simpl | simpl]; clear; set_solver. }
  assert (ai = MinesweeperAI.resolve_sentence 0
                 (MinesweeperAI.observe (MinesweeperAI.init h w) cell n)) as ->
    by (unfold ai; apply (infer_single _ _ cell Hk)).
  destruct (resolve_single _ _ _ Hk) as (R1 & R2 & R3 & R4).
  assert (({[cell]} ∪ ∅ : gset Cell) = {[cell]}) as Hu by (clear; set_solver).
  split_and!.
  - rewrite R1. exact Hu.
  - intros Hn. destruct (R2 Hn) as (-> & -> & ->). simpl. rewrite Hu.
    split_and!; [clear; set_solver | done | done].
  - intros Hn0 Hn. destruct (R3 Hn0 Hn) as (-> & -> & ->). simpl. rewrite Hu.
    split_and!; [done | clear; set_solver | done].
  - intros Hn0 Hn. rewrite (R4 Hn0 Hn). split_and!; [simpl; exact Hu | done | exact Hk].
Qed.

(** ** Where the cells of a sentence go *)

Section accounts_facts.
Import MinesweeperAI.
Implicit Types (self : MinesweeperAI.t) (c cell : Cell).

Lemma accounts_refl self : accounts self self.
Proof.
  split_and!; [done | done |]. intros i s Hs. exists s.
  split_and!; [done | done | set_solver].
Qed.

Lemma accounts_trans a b d : accounts a b → accounts b d → accounts a d.
Proof.
  intros (H1 & H2 & H3) (G1 & G2 & G3). split_and!; [by etrans | by etrans |].
  intros i s Hs. destruct (H3 i s Hs) as (s' & Hs' & Hsub & Hacc).
  destruct (G3 i s' Hs') as (s'' & Hs'' & Hsub' & Hacc'). exists s''.
  split_and!; [done | by etrans |].
  intros x Hx. apply Hacc in Hx. clear -Hx Hacc' G1 G2. set_solver.
Qed.

Lemma accounts_mark_mine self c : accounts self (mark_mine self c).
Proof.
  split_and!; simpl; [apply union_subseteq_r | done |].
  intros i s Hs. exists (Sentence.mark_mine s c). rewrite list_lookup_fmap, Hs. simpl.
  rewrite sentence_mark_mine_cells. split_and!; [done | set_solver |].
  intros x Hx. destruct (decide (x = c)) as [-> | Hne]; set_solver.
Qed.

Lemma accounts_mark_safe self c : accounts self (mark_safe self c).
Proof.
  split_and!; simpl; [done | apply union_subseteq_r |].
  intros i s Hs. exists (Sentence.mark_safe s c). rewrite list_lookup_fmap, Hs. simpl.
  rewrite sentence_mark_safe_cells. split_and!; [done | set_solver |].
  intros x Hx. destruct (decide (x = c)) as [-> | Hne]; set_solver.
Qed.

Lemma accounts_foldl {X : Type} (f : t → X → t) (l : list X) self :
  (∀ a x, accounts a (f a x)) → accounts self (foldl f self l).
Proof.
  intros H. apply (foldl_inv (accounts self)); [apply accounts_refl |].
  intros a x _ Ha. eapply accounts_trans; [exact Ha | apply H].
Qed.

Lemma accounts_resolve_sentence i self : accounts self (resolve_sentence i self).
Proof.
  destruct (knowledge self !! i) as [s |] eqn:Hi;
    [| unfold resolve_sentence; rewrite Hi; apply accounts_refl].
  rewrite (resolve_sentence_eq _ _ _ Hi). cbn zeta.
  set (mid := if bool_decide ((Sentence.known_mines s).1 ≠ ∅)
              then for_each mark_mine (Sentence.known_mines s).1 self else self).
  apply (accounts_trans _ mid).
  - unfold mid. case_bool_decide; [| apply accounts_refl].
    apply accounts_foldl. intros. apply accounts_mark_mine.
  - case_bool_decide; [| apply accounts_refl].
    apply accounts_foldl. intros. apply accounts_mark_safe.
Qed.

Lemma accounts_direct_resolution self : accounts self (direct_resolution self).
Proof. apply accounts_foldl. intros. apply accounts_resolve_sentence. Qed.

Lemma accounts_resolve_neighbor cell (s : Sentence.t) self c :
  accounts self (resolve_neighbor cell s self c).
Proof.
  unfold resolve_neighbor.
  repeat (case_bool_decide || destruct (_ && _));
    auto using accounts_refl, accounts_mark_mine, accounts_mark_safe.
Qed.

Lemma accounts_resolve_derived cell nk self : accounts self (resolve_derived cell nk self).
Proof.
  apply accounts_foldl. intros a s. apply accounts_foldl.
  intros. apply accounts_resolve_neighbor.
Qed.

Lemma accounts_append self (l : list Sentence.t) :
  accounts self (set_knowledge (knowledge self ++ l) self).
Proof.
  split_and!; simpl; [done | done |]. intros i s H. exists s.
  split_and!; [by apply lookup_app_l_Some | done | set_solver].
Qed.

Lemma accounts_infer self cell : accounts self (infer self cell).
Proof.
  unfold infer.
  eapply accounts_trans; [apply accounts_direct_resolution |].
  eapply accounts_trans; [apply accounts_resolve_derived |].
  apply accounts_append.
Qed.

Lemma accounts_observe self cell n : accounts self (observe self cell n).
Proof.
  unfold observe.
  eapply accounts_trans; [| apply accounts_append].
  eapply accounts_trans; [| apply accounts_mark_safe].
  split_and!; simpl; [done | done |]. intros i s H. exists s.
  split_and!; [done | done | set_solver].
Qed.

Lemma accounts_step self o : accounts self (step self o).
Proof.
  destruct o as [c | c | c n | | d].
  - apply accounts_mark_mine.
  - apply accounts_mark_safe.
  - eapply accounts_trans; [apply accounts_observe | apply accounts_infer].
  - apply accounts_refl.
  - apply accounts_refl.
Qed.

Lemma accounts_run self ops : accounts self (run self ops).
Proof. apply accounts_foldl. intros. apply accounts_step. Qed.

End accounts_facts.

(** X6: a cell never leaves a sentence unaccounted for.  After any sequence
    of operations, the sentence at each position of the earlier knowledge
    base has kept its position, and each of its earlier cells is still in it
    or is now in [mines] or in [safes]. *)
Theorem removed_cells_are_known (self : MinesweeperAI.t) (ops : list op)
    (i : nat) (s : Sentence.t) :
  MinesweeperAI.knowledge self !! i = Some s →
  ∃ s' : Sentence.t,
    MinesweeperAI.knowledge (run self ops) !! i = Some s'
    ∧ ∀ c : Cell,
        c ∈ Sentence.cells s →
        c ∈ Sentence.cells s'
        ∨ c ∈ MinesweeperAI.mines (run self ops)
        ∨ c ∈ MinesweeperAI.safes (run self ops).
Proof.
  intros Hs. destruct (accounts_run self ops) as (_ & _ & H).
  destruct (H i s Hs) as (s' & Hs' & _ & Hacc). exists s'. split; [done |].
  intros c Hc. apply Hacc in Hc. set_solver.
Qed.

Lemma removed_cells_are_known_witness :
  ∃ s' : Sentence.t,
    MinesweeperAI.knowledge (run scenario_state [AddKnowledge (5, 5)%Z 1]) !! 1 = Some s'
    ∧ ∀ c : Cell,
        c ∈ Sentence.cells (Sentence.Build {[(0, 0)%Z; (0, 1)%Z; (0, 2)%Z]} 2) →
        c ∈ Sentence.cells s'
        ∨ c ∈ MinesweeperAI.mines (run scenario_state [AddKnowledge (5, 5)%Z 1])
        ∨ c ∈ MinesweeperAI.safes (run scenario_state [AddKnowledge (5, 5)%Z 1]).
Proof.
  apply (removed_cells_are_known scenario_state [AddKnowledge (5, 5)%Z 1] 1).
  reflexivity.
Defined.

(** ** Forced sentences in the sweep of step 4 *)

Section forced_facts.
Import MinesweeperAI.
Implicit Types (self : MinesweeperAI.t) (s : Sentence.t) (c cell : Cell).

(** A sentence with count 0 has its cells marked safe at its turn. *)
Lemma resolve_sentence_zero i self s :
  knowledge self !! i = Some s → Sentence.count s = 0%Z →
  Sentence.cells s ⊆ safes (resolve_sentence i self).
Proof.
  intros Hi H0. rewrite (resolve_sentence_eq _ _ _ Hi). cbn zeta.
  destruct s as [cs n]. simpl in H0. subst n.
  destruct (known_sets_of cs 0) as [-> ->]. rewrite (decide_True (P := 0%Z = 0%Z)) by done.
  cbn [Sentence.cells].
  generalize (if bool_decide ((if decide (0%Z = Z.of_nat (size cs)) then cs else ∅) ≠ ∅)
              then for_each mark_mine (if decide (0%Z = Z.of_nat (size cs)) then cs else ∅) self
              else self).
  intros mid. case_bool_decide as Hne.
  - rewrite for_each_mark_safe_eq. simpl. apply union_subseteq_l.
  - assert (cs = ∅) as -> by (destruct (decide (cs = ∅)); [done | by destruct Hne]).
    apply empty_subseteq.
Qed.

(** A sentence whose count is the number of its cells has them marked as
    mines at its turn. *)
Lemma resolve_sentence_full i self s :
  knowledge self !! i = Some s → Sentence.count s = Sentence.len_cells s →
  Sentence.cells s ⊆ mines (resolve_sentence i self).
Proof.
  intros Hi Hfull. rewrite (resolve_sentence_eq _ _ _ Hi). cbn zeta.
  destruct s as [cs n]. unfold Sentence.len_cells in Hfull. simpl in Hfull. subst n.
  destruct (known_sets_of cs (Z.of_nat (size cs))) as [-> ->].
  rewrite (decide_True (P := Z.of_nat (size cs) = Z.of_nat (size cs))) by done.
  cbn [Sentence.cells].
  assert (cs ⊆ mines (if bool_decide (cs ≠ ∅) then for_each mark_mine cs self else self))
    as Hmid.
  { case_bool_decide as Hne.
    - rewrite for_each_mark_mine_eq. simpl. apply union_subseteq_l.
    - assert (cs = ∅) as -> by (destruct (decide (cs = ∅)); [done | by destruct Hne]).
      apply empty_subseteq. }
  revert Hmid.
  generalize (if bool_decide (cs ≠ ∅) then for_each mark_mine cs self else self).
  intros mid Hmid. case_bool_decide; [| done].
  rewrite for_each_mark_safe_eq. simpl. done.
Qed.

End forced_facts.

(** ** A forced observation under truthful play *)

Section forced_observation.
Import MinesweeperAI.
Variable M : gset Cell.
Implicit Types (self : MinesweeperAI.t) (s : Sentence.t) (c cell : Cell).

(** The state in which the sweep reaches the observation sentence. *)
Lemma sweep_reaches_observation self cell n :
  sound M self → cell ∉ M → n = Z.of_nat (size (around self cell ∩ M)) →
  ∃ mid sL,
    direct_resolution (observe self cell n)
    = resolve_sentence (length (knowledge self)) mid
    ∧ sound M mid
    ∧ knowledge mid !! length (knowledge self) = Some sL
    ∧ holds M sL
    ∧ safes (observe self cell n) ⊆ safes mid
    ∧ Sentence.cells sL ⊆ list_to_set (neighbors (observe self cell n) cell)
    ∧ list_to_set (neighbors (observe self cell n) cell)
      ⊆ Sentence.cells sL ∪ mines mid ∪ safes mid.
Proof.
  intros Hs Hc Hn.
  pose proof (sound_observe M self cell n Hc Hn Hs) as Ho.
  set (o := observe self cell n) in *.
  set (L := length (knowledge self)).
  set (mid := foldl (λ st i, resolve_sentence i st) o (seq 0 L)).
  assert (direct_resolution o = resolve_sentence L mid) as Hd.
  { unfold direct_resolution, o. rewrite observe_length. fold o. fold L.
    rewrite seq_S, foldl_app. reflexivity. }
  assert (sound M mid) as Hmid.
  { unfold mid. apply (foldl_inv (sound M)); [done |].
    intros a i _. apply sound_resolve_sentence. }
  assert (accounts o mid) as Hacc.
  { unfold mid. apply accounts_foldl. intros. apply accounts_resolve_sentence. }
  assert (knowledge o !! L
          = Some (Sentence.Build (list_to_set (neighbors o cell)) n)) as HL.
  { unfold o at 1. rewrite observe_knowledge.
    rewrite lookup_app_r; rewrite length_fmap; [| done].
    unfold L. rewrite Nat.sub_diag. reflexivity. }
  destruct Hacc as (_ & Hsafe & Hacc).
  destruct (Hacc L _ HL) as (sL & HsL & Hsub & Hcov). simpl in Hsub, Hcov.
  exists mid, sL. split_and!; try done.
  destruct Hmid as (_ & _ & Hall). eapply Forall_lookup_1; [exact Hall | exact HsL].
Qed.

Lemma infer_keeps_sweep_marks self cell :
  mines (direct_resolution self) ⊆ mines (infer self cell)
  ∧ safes (direct_resolution self) ⊆ safes (infer self cell).
Proof.
  unfold infer. simpl.
  destruct (grows_resolve_derived cell
              (subset_resolution (knowledge (direct_resolution self)))
              (direct_resolution self)) as (_ & _ & _ & G1 & G2 & _).
  done.
Qed.

Lemma zero_observation self cell n :
  sound M self → cell ∉ M → n = Z.of_nat (size (around self cell ∩ M)) →
  around self cell ## M →
  around self cell ⊆ safes (add_knowledge self cell n).
Proof.
  intros Hs Hc Hn Hzero.
  destruct (sweep_reaches_observation self cell n Hs Hc Hn)
    as (mid & sL & Hd & Hmid & HsL & Hh & Hsafe & Hsub & Hcov).
  destruct (infer_keeps_sweep_marks (observe self cell n) cell) as [_ Hkeep].
  fold (add_knowledge self cell n) in Hkeep. rewrite Hd in Hkeep.
  assert (list_to_set (neighbors (observe self cell n) cell) ⊆ around self cell) as HN.
  { intros c. unfold around. rewrite !elem_of_list_to_set, !elem_of_neighbors.
    unfold on_board. simpl. clear. set_solver. }
  assert (Sentence.count sL = 0%Z) as H0.
  { unfold holds in Hh. rewrite Hh.
    assert (Sentence.cells sL ∩ M = ∅) as -> by (clear -Hsub HN Hzero; set_solver).
    by rewrite size_empty. }
  pose proof (resolve_sentence_zero _ _ _ HsL H0) as Hmarked.
  destruct (grows_resolve_sentence (length (knowledge self)) mid)
    as (_ & _ & _ & _ & Gs & _).
  destruct Hmid as (Hm1 & _ & _).
  intros c Hcin. apply Hkeep.
  destruct (decide (c ∈ safes (observe self cell n))) as [Hin | Hnin].
  { apply Gs, Hsafe, Hin. }
  assert (c ∈ (list_to_set (neighbors (observe self cell n) cell) : gset Cell)) as HcN.
  { revert Hcin. unfold around. rewrite !elem_of_list_to_set, !elem_of_neighbors.
    unfold on_board. simpl. simpl in Hnin. clear -Hnin. set_solver. }
  apply Hcov in HcN. clear -HcN Hmarked Gs Hm1 Hzero Hcin. set_solver.
Qed.

Lemma full_observation self cell n :
  sound M self → cell ∉ M → n = Z.of_nat (size (around self cell ∩ M)) →
  (∀ c, c ∈ around self cell → c ∉ safes self → c ∈ M) →
  around self cell ∩ M ⊆ mines (add_knowledge self cell n).
Proof.
  intros Hs Hc Hn Hfull.
  destruct (sweep_reaches_observation self cell n Hs Hc Hn)
    as (mid & sL & Hd & Hmid & HsL & Hh & Hsafe & Hsub & Hcov).
  destruct (infer_keeps_sweep_marks (observe self cell n) cell) as [Hkeep _].
  fold (add_knowledge self cell n) in Hkeep. rewrite Hd in Hkeep.
  assert (list_to_set (neighbors (observe self cell n) cell) ⊆ M) as HN.
  { intros c Hcin. apply elem_of_list_to_set, elem_of_neighbors in Hcin as (H1 & H2 & H3 & H4).
    apply Hfull.
    - unfold around. apply elem_of_list_to_set, elem_of_neighbors.
      split; [exact H1 |]. split; [exact H2 |]. split; [exact H3 |].
      simpl. apply not_elem_of_empty.
    - simpl in H4. clear -H4. set_solver. }
  assert (Sentence.count sL = Sentence.len_cells sL) as Hcount.
  { unfold holds in Hh. unfold Sentence.len_cells. rewrite Hh.
    assert (Sentence.cells sL ∩ M = Sentence.cells sL) as -> by (clear -Hsub HN; set_solver).
    done. }
  pose proof (resolve_sentence_full _ _ _ HsL Hcount) as Hmarked.
  destruct (grows_resolve_sentence (length (knowledge self)) mid)
    as (_ & _ & _ & Gm & _ & _).
  destruct Hmid as (_ & Hm2 & _).
  destruct Hs as (_ & Hs2 & _).
  intros c Hcin. apply elem_of_intersection in Hcin as [Hca HcM]. apply Hkeep.
  assert (c ∈ (list_to_set (neighbors (observe self cell n) cell) : gset Cell)) as HcN.
  { revert Hca. unfold around. rewrite !elem_of_list_to_set, !elem_of_neighbors.
    intros (H1 & H2 & H3 & _).
    split; [exact H1 |]. split; [exact H2 |]. split; [exact H3 |].
    simpl. intros Hin. apply elem_of_union in Hin as [Hin | Hin].
    - apply elem_of_singleton in Hin. done.
    - apply (Hs2 c Hin HcM). }
  apply Hcov in HcN. clear -HcN Hmarked Gm Hm2 HcM. set_solver.
Qed.

End forced_observation.

(** X7: direct resolution under truthful play.  When a cell is observed
    with its true count after truthful play, and none of the cells around it
    is a mine, all of them are in [safes] when the call returns; and when
    every cell around it that is not already known safe is a mine, all the
    mines around it are in [mines] when the call returns. *)
Theorem forced_observation_is_resolved (M : gset Cell) (h w : Z) (ops : list op)
    (cell : Cell) :
  truthful_run M (MinesweeperAI.init h w) ops →
  cell ∉ M →
  let st := run (MinesweeperAI.init h w) ops in
  let ai := MinesweeperAI.add_knowledge st cell (Z.of_nat (size (around st cell ∩ M))) in
  (around st cell ## M → around st cell ⊆ MinesweeperAI.safes ai)
  ∧ ((∀ c : Cell, c ∈ around st cell → c ∉ MinesweeperAI.safes st → c ∈ M) →
     around st cell ∩ M ⊆ MinesweeperAI.mines ai).
Proof.
  intros Ht Hc st ai.
  pose proof (sound_run M _ ops Ht (sound_init M h w)) as Hs. fold st in Hs.
  split.
  - intros Hzero. by apply (zero_observation M st cell).
  - intros Hfull. by apply (full_observation M st cell).
Qed.

Lemma forced_observation_is_resolved_witness :
  let st := run (MinesweeperAI.init 3 3) [AddKnowledge (0, 0)%Z 1] in
  let ai :=
    MinesweeperAI.add_knowledge st (2, 0)%Z
      (Z.of_nat (size (around st (2, 0)%Z ∩ example_mines))) in
  (around st (2, 0)%Z ## example_mines → around st (2, 0)%Z ⊆ MinesweeperAI.safes ai)
  ∧ ((∀ c : Cell,
         c ∈ around st (2, 0)%Z → c ∉ MinesweeperAI.safes st → c ∈ example_mines) →
     around st (2, 0)%Z ∩ example_mines ⊆ MinesweeperAI.mines ai).
Proof.
  apply (forced_observation_is_resolved example_mines 3%Z 3%Z
           [AddKnowledge (0, 0)%Z 1] (2, 0)%Z).
  - check_truthful.
  - vm_compute. congruence.
Defined.

(** * The board *)

(** ** Counting the mines around a cell *)

Section nearby_mines_facts.
Import Minesweeper.
Variable g : Minesweeper.t.
Hypothesis Hagree : board_agrees g.
Implicit Types (cell c : Cell).

Lemma nearby_step_counts cell (k : Z) c :
  nearby_step g cell (Some k) c.1 c.2
  = Some (k + (if decide (counted g cell c) then 1 else 0))%Z.
Proof.
  destruct c as [i j]. unfold nearby_step. cbn [fst snd mbind option_bind].
  case_bool_decide as Hcell.
  { rewrite decide_False; [f_equal; lia | intros (H & _); done]. }
  destruct (bool_decide (0 ≤ i < height g)%Z) eqn:Hi;
    [| rewrite decide_False;
       [simpl; f_equal; lia
       | apply bool_decide_eq_false in Hi; intros (_ & [H _] & _); simpl in H; done]].
  destruct (bool_decide (0 ≤ j < width g)%Z) eqn:Hj;
    [| rewrite decide_False;
       [simpl; f_equal; lia
       | apply bool_decide_eq_false in Hj; intros (_ & [_ H] & _); simpl in H; done]].
  apply bool_decide_eq_true in Hi. apply bool_decide_eq_true in Hj. simpl.
  destruct Hagree as [Hb _]. specialize (Hb i j Hi Hj). unfold is_mine in Hb.
  destruct (py_index (board g) i) as [row |]; simpl in Hb |- *; [| done].
  rewrite Hb. simpl. f_equal.
  case_bool_decide as Hm.
  - rewrite decide_True; [done | unfold counted; simpl; split_and!; try done; lia].
  - rewrite decide_False; [lia | intros (_ & _ & H); done].
Qed.

Lemma count_fold cell (l : list Cell) (k : Z) :
  foldl (λ count c, nearby_step g cell count c.1 c.2) (Some k) l
  = Some (k + Z.of_nat (length (filter (counted g cell) l)))%Z.
Proof.
  revert k. induction l as [| c l IH]; intros k.
  - simpl. f_equal. lia.
  - rewrite foldl_cons_eq, nearby_step_counts, IH, filter_cons.
    f_equal. case_decide; simpl; lia.
Qed.

Lemma nearby_mines_visited cell :
  nearby_mines g cell
  = foldl (λ count c, nearby_step g cell count c.1 c.2) (Some 0%Z) (visited cell).
Proof.
  unfold nearby_mines, visited.
  generalize (Some 0%Z). generalize (range (cell.1 - 1) (cell.1 + 2)).
  intros rows. induction rows as [| i rows IH]; intros acc; [done |].
  rewrite foldl_cons_eq, bind_cons, foldl_app, <- IH. f_equal.
  generalize (range (cell.2 - 1) (cell.2 + 2)). clear IH. revert acc.
  intros acc cols. revert acc. induction cols as [| j cols IH]; intros acc; [done |].
  rewrite foldl_cons_eq, bind_cons, foldl_app, <- IH. reflexivity.
Qed.

Lemma elem_of_visited cell c :
  c ∈ visited cell ↔ (chebyshev c cell ≤ 1)%Z.
Proof.
  destruct c as [x y]. unfold visited, chebyshev. simpl.
  rewrite list_elem_of_bind. split.
  - intros (i & Hin & Hi). apply elem_of_range in Hi.
    apply list_elem_of_bind in Hin as (j & Hin & Hj). apply elem_of_range in Hj.
    apply list_elem_of_singleton in Hin as [= -> ->]. lia.
  - intros H. exists x. split; [| apply elem_of_range; lia].
    apply list_elem_of_bind. exists y. split; [by apply list_elem_of_singleton |].
    apply elem_of_range. lia.
Qed.

Lemma NoDup_visited cell : NoDup (visited cell).
Proof.
  unfold visited. apply NoDup_bind; [| | apply NoDup_seqZ].
  - intros i1 i2 c _ _ H1 H2.
    apply list_elem_of_bind in H1 as (j1 & H1 & _). apply list_elem_of_singleton in H1.
    apply list_elem_of_bind in H2 as (j2 & H2 & _). apply list_elem_of_singleton in H2.
    congruence.
  - intros i _. apply NoDup_bind; [| | apply NoDup_seqZ].
    + intros j1 j2 c _ _ H1 H2.
      apply list_elem_of_singleton in H1. apply list_elem_of_singleton in H2. congruence.
    + intros j _. apply NoDup_singleton.
Qed.

Lemma range_three (a : Z) : range (a - 1) (a + 2) = [a - 1; a; a + 1]%Z.
Proof.
  unfold range. replace (a + 2 - (a - 1))%Z with 3%Z by lia.
  rewrite !seqZ_cons by lia. rewrite seqZ_nil by lia.
  repeat (f_equal; try lia).
Qed.

Lemma length_visited cell : length (visited cell) = 9.
Proof. unfold visited. by rewrite !range_three. Qed.

Lemma around_counted (ai : MinesweeperAI.t) cell :
  MinesweeperAI.height ai = height g → MinesweeperAI.width ai = width g →
  around ai cell ∩ mines g = list_to_set (filter (counted g cell) (visited cell)).
Proof.
  intros Hh Hw. apply set_eq. intros c.
  rewrite elem_of_intersection, elem_of_list_to_set, list_elem_of_filter, elem_of_visited.
  unfold around. rewrite elem_of_list_to_set, elem_of_neighbors.
  unfold on_board, counted. simpl. rewrite Hh, Hw. clear. set_solver.
Qed.

Lemma nearby_mines_counts (ai : MinesweeperAI.t) cell :
  MinesweeperAI.height ai = height g → MinesweeperAI.width ai = width g →
  nearby_mines g cell = Some (Z.of_nat (size (around ai cell ∩ mines g)))
  ∧ size (around ai cell ∩ mines g) ≤ 8.
Proof.
  intros Hh Hw. rewrite (around_counted ai cell Hh Hw).
  rewrite size_list_to_set by (apply NoDup_filter, NoDup_visited).
  rewrite nearby_mines_visited, count_fold. split; [f_equal; lia |].
  assert (length (filter (counted g cell) (visited cell)) < length (visited cell)) as Hlt.
  { apply (length_filter_lt _ _ cell).
    - apply elem_of_visited. rewrite chebyshev_self. lia.
    - intros (H & _). done. }
  rewrite length_visited in Hlt. lia.
Qed.

End nearby_mines_facts.

(** ** Placing the mines *)

Section placing_facts.
Import Minesweeper.

Lemma py_index_in {A : Type} (l : list A) (i : Z) :
  (0 ≤ i < Z.of_nat (length l))%Z → py_index l i = l !! Z.to_nat i.
Proof. intros H. unfold py_index. by rewrite bool_decide_eq_true_2. Qed.

Lemma py_set_in {A : Type} (l : list A) (i : Z) (v : A) :
  (0 ≤ i < Z.of_nat (length l))%Z → py_set l i v = Some (<[Z.to_nat i := v]> l).
Proof. intros H. unfold py_set. by rewrite bool_decide_eq_true_2. Qed.

Lemma randrange_Some (n : Z) (d : nat) (i : Z) :
  randrange n d = Some i → (0 ≤ i < n)%Z.
Proof.
  unfold randrange. case_bool_decide; [| done]. intros [= <-].
  apply Z.mod_pos_bound. lia.
Qed.

Lemma randrange_None (n : Z) (d : nat) : randrange n d = None ↔ (n ≤ 0)%Z.
Proof. unfold randrange. case_bool_decide; split; (done || lia). Qed.

Lemma placed_empty (h w : Z) : placed h w ∅ (empty_board h w).
Proof.
  unfold placed, empty_board, range. split_and!.
  - rewrite length_fmap, length_seqZ. lia.
  - apply Forall_fmap, Forall_forall. intros x _. simpl.
    rewrite length_fmap, length_seqZ. lia.
  - intros i j Hi Hj. eexists. split.
    + rewrite list_lookup_fmap, (lookup_seqZ_lt 0 (h - 0) (Z.to_nat i)) by lia. reflexivity.
    + rewrite list_lookup_fmap, (lookup_seqZ_lt 0 (w - 0) (Z.to_nat j)) by lia. simpl.
      by rewrite bool_decide_eq_false_2 by set_solver.
  - intros c Hc. set_solver.
Qed.

Lemma placed_add (h w : Z) (mines : gset Cell) (board : list (list bool))
    (i j : Z) (row : list bool) :
  placed h w mines board → (0 ≤ i < h)%Z → (0 ≤ j < w)%Z →
  board !! Z.to_nat i = Some row →
  placed h w ({[(i, j)]} ∪ mines) (<[Z.to_nat i := <[Z.to_nat j := true]> row]> board).
Proof.
  intros (Hlen & Hrows & Hcells & Hon) Hi Hj Hrow.
  assert (length row = Z.to_nat w) as Hrl
    by (eapply Forall_lookup_1 in Hrows; [exact Hrows | exact Hrow]).
  split_and!.
  - by rewrite length_insert.
  - apply Forall_insert; [done |]. by rewrite length_insert.
  - intros i' j' Hi' Hj'. destruct (Hcells i' j' Hi' Hj') as (row' & Hr' & Hc').
    destruct (decide (i' = i)) as [-> | Hne].
    + exists (<[Z.to_nat j := true]> row). split.
      * apply list_lookup_insert_eq. lia.
      * assert (row' = row) as -> by congruence.
        destruct (decide (j' = j)) as [-> | Hnej].
        -- rewrite list_lookup_insert_eq by lia.
           by rewrite bool_decide_eq_true_2 by set_solver.
        -- rewrite list_lookup_insert_ne by lia. rewrite Hc'. f_equal.
           apply bool_decide_ext. set_solver.
    + exists row'. split.
      * rewrite list_lookup_insert_ne by lia. done.
      * rewrite Hc'. f_equal. apply bool_decide_ext. set_solver.
  - intros c Hc. apply elem_of_union in Hc as [Hc | Hc]; [| by apply Hon].
    apply elem_of_singleton in Hc as ->. simpl. lia.
Qed.

Lemma placed_agrees (h w : Z) (ms mf : gset Cell) (b : list (list bool)) :
  placed h w ms b → board_agrees (Build h w ms b mf).
Proof.
  intros (Hlen & Hrows & Hcells & Hon). split; [| exact Hon].
  intros i j Hi Hj. simpl in *. destruct (Hcells i j Hi Hj) as (row & Hr & Hc).
  assert (length row = Z.to_nat w) as Hrl
    by (eapply Forall_lookup_1 in Hrows; [exact Hrows | exact Hr]).
  rewrite py_index_in by lia. rewrite Hr. simpl. rewrite py_index_in by lia. done.
Qed.

End placing_facts.

Section place_facts.
Import Minesweeper.
Variables (h w n : Z).

Lemma place_spec (k : nat) :
  ∀ (draws : list nat) (ms : gset Cell) (b : list (list bool)),
    length draws ≤ k → placed h w ms b →
    match place h w n draws ms b with
    | Returned g =>
        height g = h ∧ width g = w ∧ mines_found g = ∅
        ∧ Z.of_nat (size (mines g)) = n
        ∧ placed h w (mines g) (board g) ∧ ms ⊆ mines g
    | ValueError => (h ≤ 0 ∨ w ≤ 0)%Z
    | IndexError => False
    | StillPlacing => True
    end.
Proof.
  induction k as [k IH] using lt_wf_ind. intros draws ms b Hlen Hp.
  destruct draws as [| di draws]; simpl.
  { case_bool_decide as Hc; [done |]. by split_and!. }
  case_bool_decide as Hc; [| by split_and!].
  destruct (randrange h di) as [i |] eqn:Hi;
    [| apply randrange_None in Hi; by left].
  apply randrange_Some in Hi.
  destruct draws as [| dj draws]; [done |].
  destruct (randrange w dj) as [j |] eqn:Hj;
    [| apply randrange_None in Hj; by right].
  apply randrange_Some in Hj.
  destruct Hp as (Hbl & Hrows & Hcells & Hon).
  destruct (Hcells i j Hi Hj) as (row & Hrow & Hcell).
  assert (length row = Z.to_nat w) as Hrl
    by (eapply Forall_lookup_1 in Hrows; [exact Hrows | exact Hrow]).
  rewrite py_index_in by lia. rewrite Hrow.
  rewrite py_index_in by lia. rewrite Hcell.
  simpl in Hlen.
  case_bool_decide as Hm.
  - apply (IH (length draws)); [lia | done | by split_and!].
  - rewrite py_set_in by lia. rewrite py_set_in by lia.
    pose proof (placed_add h w ms b i j row
                  (conj Hbl (conj Hrows (conj Hcells Hon))) Hi Hj Hrow) as Hp'.
    specialize (IH (length draws) ltac:(lia) draws _ _ (Nat.le_refl _) Hp').
    destruct (place h w n draws ({[(i, j)]} ∪ ms)
                (<[Z.to_nat i := <[Z.to_nat j := true]> row]> b)); try done.
    destruct IH as (E1 & E2 & E3 & E4 & E5 & E6).
    split_and!; try done. clear -E6. set_solver.
Qed.

End place_facts.

(** X8: on a board that agrees with its [mines] set, [nearby_mines(cell)]
    returns, without an index error, the number of mines among the on-board
    cells at Chebyshev distance 1 from [cell] (the cell itself is not
    counted), which is at most 8; this is the very set of cells the engine
    of the same size builds its observation from. *)
Theorem nearby_mines_counts_neighbours (g : Minesweeper.t) (ai : MinesweeperAI.t)
    (cell : Cell) :
  board_agrees g →
  MinesweeperAI.height ai = Minesweeper.height g →
  MinesweeperAI.width ai = Minesweeper.width g →
  Minesweeper.nearby_mines g cell
  = Some (Z.of_nat (size (around ai cell ∩ Minesweeper.mines g)))
  ∧ size (around ai cell ∩ Minesweeper.mines g) ≤ 8
  ∧ ∀ c : Cell,
      c ∈ around ai cell
      ↔ chebyshev c cell = 1%Z
        ∧ (0 ≤ c.1 < Minesweeper.height g)%Z ∧ (0 ≤ c.2 < Minesweeper.width g)%Z.
Proof.
  intros Hg Hh Hw.
  destruct (nearby_mines_counts g Hg ai cell Hh Hw) as [H1 H2].
  split_and!; [done | done |].
  intros c. unfold around. rewrite elem_of_list_to_set, elem_of_neighbors.
  unfold on_board. simpl. rewrite Hh, Hw.
  assert (chebyshev c cell = 1%Z ↔ (chebyshev c cell ≤ 1)%Z ∧ c ≠ cell) as ->.
  { destruct c as [x y], cell as [i j]. unfold chebyshev. simpl. split.
    - intros H. split; [lia |]. intros [= -> ->]. lia.
    - intros [H Hne].
      assert (x ≠ i ∨ y ≠ j) by (destruct (decide (x = i)); [right; congruence | by left]).
      lia. }
  clear. set_solver.
Qed.

(** The 3 by 3 example board is checked cell by cell. *)
Ltac check_example_board :=
  split;
  [ intros i j Hi Hj; simpl in Hi, Hj;
    assert (i = 0 ∨ i = 1 ∨ i = 2)%Z as [-> | [-> | ->]] by lia;
    assert (j = 0 ∨ j = 1 ∨ j = 2)%Z as [-> | [-> | ->]] by lia;
    vm_compute; reflexivity
  | intros c Hc; change (c ∈ ({[(0, 1)%Z]} : gset Cell)) in Hc;
    apply elem_of_singleton in Hc; subst c; simpl; lia ].

Lemma nearby_mines_counts_neighbours_witness :
  Minesweeper.nearby_mines example_game (0, 0)%Z
  = Some (Z.of_nat (size (around (MinesweeperAI.init 3 3) (0, 0)%Z
                          ∩ Minesweeper.mines example_game)))
  ∧ size (around (MinesweeperAI.init 3 3) (0, 0)%Z ∩ Minesweeper.mines example_game) ≤ 8
  ∧ ∀ c : Cell,
      c ∈ around (MinesweeperAI.init 3 3) (0, 0)%Z
      ↔ chebyshev c (0, 0)%Z = 1%Z
        ∧ (0 ≤ c.1 < Minesweeper.height example_game)%Z
        ∧ (0 ≤ c.2 < Minesweeper.width example_game)%Z.
Proof.
  apply (nearby_mines_counts_neighbours example_game (MinesweeperAI.init 3 3) (0, 0)%Z).
  - check_example_board.
  - reflexivity.
  - reflexivity.
Defined.

(** ** What [__init__] returns *)

Section init_facts.
Import Minesweeper.

Lemma length_grid (l1 l2 : list Z) :
  length (x ← l1; y ← l2; [(x, y)]) = length l1 * length l2.
Proof.
  induction l1 as [| x l1 IH]; [done |].
  rewrite bind_cons, length_app, IH. simpl. f_equal.
  clear IH. induction l2 as [| y l2 IH]; [done |].
  rewrite bind_cons, length_app, IH. done.
Qed.

Lemma NoDup_grid (l1 l2 : list Z) :
  NoDup l1 → NoDup l2 → NoDup (x ← l1; y ← l2; [(x, y)]).
Proof.
  intros H1 H2. apply NoDup_bind; [| | done].
  - intros i1 i2 c _ _ Hc1 Hc2.
    apply list_elem_of_bind in Hc1 as (j1 & Hc1 & _). apply list_elem_of_singleton in Hc1.
    apply list_elem_of_bind in Hc2 as (j2 & Hc2 & _). apply list_elem_of_singleton in Hc2.
    congruence.
  - intros i _. apply NoDup_bind; [| | done].
    + intros j1 j2 c _ _ Hc1 Hc2.
      apply list_elem_of_singleton in Hc1. apply list_elem_of_singleton in Hc2. congruence.
    + intros j _. apply NoDup_singleton.
Qed.

(** A board holds at most as many mines as it has cells. *)
Lemma placed_size (h w : Z) (ms : gset Cell) (b : list (list bool)) :
  placed h w ms b → size ms ≤ Z.to_nat h * Z.to_nat w.
Proof.
  intros (_ & _ & _ & Hon).
  set (grid := x ← seqZ 0 h; y ← seqZ 0 w; [(x, y)]).
  assert (ms ⊆ list_to_set grid) as Hsub.
  { intros [x y] Hc. apply Hon in Hc as [Hx Hy]. simpl in Hx, Hy.
    apply elem_of_list_to_set. unfold grid. apply list_elem_of_bind. exists x.
    split; [| apply elem_of_seqZ; lia]. apply list_elem_of_bind. exists y.
    split; [by apply list_elem_of_singleton | apply elem_of_seqZ; lia]. }
  apply subseteq_size in Hsub.
  rewrite size_list_to_set in Hsub by (apply NoDup_grid; apply NoDup_seqZ).
  unfold grid in Hsub. rewrite length_grid, !length_seqZ in Hsub. done.
Qed.

Lemma init_spec (h w n : Z) (draws : list nat) :
  match init h w n draws with
  | Returned g =>
      height g = h ∧ width g = w ∧ mines_found g = ∅
      ∧ Z.of_nat (size (mines g)) = n ∧ placed h w (mines g) (board g)
  | ValueError => (h ≤ 0 ∨ w ≤ 0)%Z
  | IndexError => False
  | StillPlacing => True
  end.
Proof.
  pose proof (place_spec h w n (length draws) draws ∅ (empty_board h w)
                (Nat.le_refl _) (placed_empty h w)) as H.
  unfold init. destruct (place h w n draws ∅ (empty_board h w)); try done.
  destruct H as (? & ? & ? & ? & ? & _). by split_and!.
Qed.

End init_facts.

(** X9: when [__init__(height, width, mines)] returns, the game has the
    given height and width, exactly [mines] mines, all of them on the board,
    a field of [height] rows of [width] cells that is [True] exactly at the
    mines, and no mine found yet; it is already won only when [mines] is 0. *)
Theorem init_returns_a_proper_game (h w n : Z) (draws : list nat) (g : Minesweeper.t) :
  Minesweeper.init h w n draws = Minesweeper.Returned g →
  Minesweeper.height g = h ∧ Minesweeper.width g = w
  ∧ Minesweeper.mines_found g = ∅
  ∧ Z.of_nat (size (Minesweeper.mines g)) = n
  ∧ board_agrees g
  ∧ length (Minesweeper.board g) = Z.to_nat h
  ∧ Forall (λ row, length row = Z.to_nat w) (Minesweeper.board g)
  ∧ Minesweeper.won g = bool_decide (n = 0%Z).
Proof.
  intros Hinit. pose proof (init_spec h w n draws) as H. rewrite Hinit in H.
  destruct H as (E1 & E2 & E3 & E4 & Hp). destruct g as [gh gw ms b mf]. simpl in *.
  subst gh gw mf. split_and!; try done.
  - by apply placed_agrees.
  - apply Hp.
  - apply Hp.
  - unfold Minesweeper.won. simpl. apply bool_decide_ext. split.
    + intros <-. rewrite size_empty in E4. lia.
    + intros ->. symmetry. apply leibniz_equiv, size_empty_iff. lia.
Qed.

Lemma init_returns_a_proper_game_witness :
  Minesweeper.height example_game = 3%Z ∧ Minesweeper.width example_game = 3%Z
  ∧ Minesweeper.mines_found example_game = ∅
  ∧ Z.of_nat (size (Minesweeper.mines example_game)) = 1%Z
  ∧ board_agrees example_game
  ∧ length (Minesweeper.board example_game) = Z.to_nat 3
  ∧ Forall (λ row, length row = Z.to_nat 3) (Minesweeper.board example_game)
  ∧ Minesweeper.won example_game = bool_decide (1%Z = 0%Z).
Proof.
  apply (init_returns_a_proper_game 3%Z 3%Z 1%Z [0; 1] example_game).
  vm_compute. reflexivity.
Defined.

(** X10: the ways [__init__] can fail to return.  With 0 mines it returns
    the empty field at once, whatever the dimensions, without drawing.  It
    never raises an index error.  When the number of mines is negative or
    exceeds the number of cells, no sequence of draws makes it return: when a
    dimension is not positive the first [randrange] raises [ValueError], and
    otherwise the loop is still running after any number of draws. *)
Theorem init_edge_cases (h w n : Z) (draws : list nat) :
  (n = 0%Z →
   Minesweeper.init h w n draws
   = Minesweeper.Returned (Minesweeper.Build h w ∅ (Minesweeper.empty_board h w) ∅))
  ∧ Minesweeper.init h w n draws ≠ Minesweeper.IndexError
  ∧ ((n < 0 ∨ Z.max 0 h * Z.max 0 w < n)%Z →
     ∀ g : Minesweeper.t, Minesweeper.init h w n draws ≠ Minesweeper.Returned g)
  ∧ (n ≠ 0%Z → (h ≤ 0)%Z → draws ≠ [] →
     Minesweeper.init h w n draws = Minesweeper.ValueError)
  ∧ (n ≠ 0%Z → (0 < h)%Z → (w ≤ 0)%Z → 2 ≤ length draws →
     Minesweeper.init h w n draws = Minesweeper.ValueError)
  ∧ ((n < 0 ∨ h * w < n)%Z → (0 < h)%Z → (0 < w)%Z →
     Minesweeper.init h w n draws = Minesweeper.StillPlacing).
Proof.
  pose proof (init_spec h w n draws) as Hspec.
  assert ((n < 0 ∨ Z.max 0 h * Z.max 0 w < n)%Z →
          ∀ g, Minesweeper.init h w n draws ≠ Minesweeper.Returned g) as Hnever.
  { intros Hn g Hg. rewrite Hg in Hspec. destruct Hspec as (_ & _ & _ & Hsz & Hp).
    apply placed_size in Hp.
    assert (Z.of_nat (Z.to_nat h * Z.to_nat w) = Z.max 0 h * Z.max 0 w)%Z as Hmul.
    { rewrite Nat2Z.inj_mul. f_equal; lia. }
    lia. }
  split_and!.
  - intros ->. unfold Minesweeper.init. destruct draws; cbn [Minesweeper.place];
      rewrite size_empty; by rewrite bool_decide_eq_false_2 by (intros H; by apply H).
  - intros E. by rewrite E in Hspec.
  - exact Hnever.
  - intros Hn Hh Hd. unfold Minesweeper.init. destruct draws as [| d draws]; [done |].
    cbn [Minesweeper.place]. rewrite size_empty.
    rewrite bool_decide_eq_true_2 by (simpl; lia).
    unfold randrange. by rewrite bool_decide_eq_false_2 by lia.
  - intros Hn Hh Hw Hlen. unfold Minesweeper.init.
    destruct draws as [| di [| dj draws]]; simpl in Hlen; [lia | lia |].
    cbn [Minesweeper.place]. rewrite size_empty.
    rewrite bool_decide_eq_true_2 by (simpl; lia).
    unfold randrange. rewrite (bool_decide_eq_true_2 (0 < h)%Z) by done.
    by rewrite bool_decide_eq_false_2 by lia.
  - intros Hn Hh Hw.
    destruct (Minesweeper.init h w n draws) as [g | | |] eqn:E; [| lia | done | done].
    exfalso. apply (Hnever ltac:(lia) g). done.
Qed.

(** ** The engine fed by the board *)

Lemma is_mine_false_not_mine (g : Minesweeper.t) (cell : Cell) :
  board_agrees g → Minesweeper.is_mine g cell = Some false → cell ∉ Minesweeper.mines g.
Proof.
  intros [Hb Hon] Hm Hin. destruct cell as [i j].
  destruct (Hon _ Hin) as [Hi Hj]. simpl in Hi, Hj.
  rewrite (Hb i j Hi Hj) in Hm. by rewrite bool_decide_eq_true_2 in Hm.
Qed.

(** X11: the answers of the board are truthful for the engine.  When
    [is_mine(cell)] is false and the engine, of the same size as the board, is
    given [nearby_mines(cell)] for that cell, the call is a truthful one for
    the board's mines; so an engine whose beliefs were all true of the board
    still has only true beliefs after [add_knowledge(cell, nearby_mines(cell))]. *)
Theorem board_answers_are_truthful (g : Minesweeper.t) (ai : MinesweeperAI.t)
    (cell : Cell) (n : Z) :
  board_agrees g →
  MinesweeperAI.height ai = Minesweeper.height g →
  MinesweeperAI.width ai = Minesweeper.width g →
  Minesweeper.is_mine g cell = Some false →
  Minesweeper.nearby_mines g cell = Some n →
  truthful (Minesweeper.mines g) ai (AddKnowledge cell n)
  ∧ (sound (Minesweeper.mines g) ai →
     MinesweeperAI.mines (MinesweeperAI.add_knowledge ai cell n) ⊆ Minesweeper.mines g
     ∧ MinesweeperAI.safes (MinesweeperAI.add_knowledge ai cell n) ## Minesweeper.mines g
     ∧ Forall (holds (Minesweeper.mines g))
         (MinesweeperAI.knowledge (MinesweeperAI.add_knowledge ai cell n))).
Proof.
  intros Hg Hh Hw Hm Hn.
  assert (truthful (Minesweeper.mines g) ai (AddKnowledge cell n)) as Ht.
  { split; [by apply is_mine_false_not_mine |].
    destruct (nearby_mines_counts g Hg ai cell Hh Hw) as [E _]. congruence. }
  split; [exact Ht |]. intros Hs.
  apply (sound_step (Minesweeper.mines g) ai (AddKnowledge cell n) Ht Hs).
Qed.

Lemma board_answers_are_truthful_witness :
  truthful (Minesweeper.mines example_game) (MinesweeperAI.init 3 3)
    (AddKnowledge (0, 0)%Z 1)
  ∧ (sound (Minesweeper.mines example_game) (MinesweeperAI.init 3 3) →
     MinesweeperAI.mines (MinesweeperAI.add_knowledge (MinesweeperAI.init 3 3) (0, 0)%Z 1)
     ⊆ Minesweeper.mines example_game
     ∧ MinesweeperAI.safes (MinesweeperAI.add_knowledge (MinesweeperAI.init 3 3) (0, 0)%Z 1)
       ## Minesweeper.mines example_game
     ∧ Forall (holds (Minesweeper.mines example_game))
         (MinesweeperAI.knowledge
            (MinesweeperAI.add_knowledge (MinesweeperAI.init 3 3) (0, 0)%Z 1))).
Proof.
  apply (board_answers_are_truthful example_game (MinesweeperAI.init 3 3) (0, 0)%Z 1%Z).
  - check_example_board.
  - reflexivity.
  - reflexivity.
  - vm_compute. reflexivity.
  - vm_compute. reflexivity.
Defined.

(** ** Moves are not repeated *)

Lemma make_random_move_Some (self : MinesweeperAI.t) (draw : nat) (c : Cell) :
  (MinesweeperAI.make_random_move self draw).1 = Some c →
  c ∈ MinesweeperAI.possible_moves self.
Proof.
  unfold MinesweeperAI.make_random_move. simpl. case_bool_decide; [| done].
  intros Hc. apply list_elem_of_lookup. eauto.
Qed.

(** X12: a cell that has been played is never proposed again, and a cell
    known to be a mine is never proposed by [make_random_move]: whatever
    operations follow, neither [make_safe_move] nor [make_random_move] returns
    a cell of the earlier [moves_made], and [make_random_move] returns no cell
    of the earlier [mines]. *)
Theorem played_cells_are_not_proposed (self : MinesweeperAI.t) (ops : list op) (c : Cell) :
  (c ∈ MinesweeperAI.moves_made self →
   (MinesweeperAI.make_safe_move (run self ops)).1 ≠ Some c
   ∧ ∀ draw : nat, (MinesweeperAI.make_random_move (run self ops) draw).1 ≠ Some c)
  ∧ (c ∈ MinesweeperAI.mines self →
     ∀ draw : nat, (MinesweeperAI.make_random_move (run self ops) draw).1 ≠ Some c).
Proof.
  destruct (grows_run self ops) as (_ & _ & Gmv & Gmi & _ & _). split.
  - intros Hc. split.
    + intros H. apply make_safe_move_Some in H as (_ & _ & Hn & _). apply Hn, Gmv, Hc.
    + intros draw H. apply make_random_move_Some, elem_of_possible_moves in H as (_ & Hn & _).
      apply Hn, Gmv, Hc.
  - intros Hc draw H.
    apply make_random_move_Some, elem_of_possible_moves in H as (_ & _ & Hn).
    apply Hn, Gmi, Hc.
Qed.

(** ** Indexing the board *)

Lemma py_index_wrap {A : Type} (l : list A) (i : Z) :
  (- Z.of_nat (length l) ≤ i < 0)%Z → py_index l i = py_index l (i + Z.of_nat (length l)).
Proof.
  intros H. unfold py_index.
  rewrite (bool_decide_eq_false_2 (0 ≤ i < _)%Z) by lia.
  rewrite (bool_decide_eq_true_2 (- _ ≤ i < 0)%Z) by lia.
  rewrite (bool_decide_eq_true_2 (0 ≤ i + _ < _)%Z) by lia.
  f_equal. lia.
Qed.

Lemma py_index_out {A : Type} (l : list A) (i : Z) :
  (i < - Z.of_nat (length l) ∨ Z.of_nat (length l) ≤ i)%Z → py_index l i = None.
Proof.
  intros H. unfold py_index.
  rewrite (bool_decide_eq_false_2 (0 ≤ i < _)%Z) by lia.
  by rewrite (bool_decide_eq_false_2 (- _ ≤ i < 0)%Z) by lia.
Qed.

(** X13: [is_mine] on a game returned by [__init__].  For a cell of the
    board it tells whether the cell is in [mines].  A negative row or column
    down to minus the height or width does not fail: it reads the row or
    column counted from the end.  Any other index raises [IndexError]. *)
Theorem is_mine_index_behaviour (h w n : Z) (draws : list nat) (g : Minesweeper.t)
    (i j : Z) :
  Minesweeper.init h w n draws = Minesweeper.Returned g →
  ((0 ≤ i < h)%Z → (0 ≤ j < w)%Z →
   Minesweeper.is_mine g (i, j) = Some (bool_decide ((i, j) ∈ Minesweeper.mines g)))
  ∧ ((- h ≤ i < 0)%Z →
     Minesweeper.is_mine g (i, j) = Minesweeper.is_mine g ((i + h)%Z, j))
  ∧ ((0 ≤ i < h)%Z → (- w ≤ j < 0)%Z →
     Minesweeper.is_mine g (i, j) = Minesweeper.is_mine g (i, (j + w)%Z))
  ∧ ((i < - h ∨ h ≤ i)%Z → (0 ≤ h)%Z → Minesweeper.is_mine g (i, j) = None)
  ∧ ((0 ≤ i < h)%Z → (j < - w ∨ w ≤ j)%Z → (0 ≤ w)%Z →
     Minesweeper.is_mine g (i, j) = None).
Proof.
  intros Hinit. pose proof (init_spec h w n draws) as H. rewrite Hinit in H.
  destruct H as (E1 & E2 & _ & _ & Hp).
  pose proof Hp as (Hlen & Hrows & Hcells & _).
  assert (∀ i', (0 ≤ i' < h)%Z →
            ∃ row, Minesweeper.board g !! Z.to_nat i' = Some row
                   ∧ length row = Z.to_nat w) as Hrow.
  { intros i' Hi'.
    destruct (lookup_lt_is_Some_2 (Minesweeper.board g) (Z.to_nat i')) as [row Hr]; [lia |].
    exists row. split; [done |]. eapply Forall_lookup_1 in Hrows; [exact Hrows | exact Hr]. }
  unfold Minesweeper.is_mine. split_and!.
  - intros Hi Hj. destruct (Hcells i j Hi Hj) as (row & Hr & Hc).
    destruct (Hrow i Hi) as (row' & Hr' & Hl). assert (row' = row) as -> by congruence.
    rewrite py_index_in by lia. rewrite Hr. simpl. rewrite py_index_in by lia. done.
  - intros Hi. rewrite py_index_wrap by lia. do 2 f_equal. lia.
  - intros Hi Hj. destruct (Hrow i Hi) as (row & Hr & Hl).
    rewrite py_index_in by lia. rewrite Hr. simpl.
    rewrite py_index_wrap by lia. f_equal. lia.
  - intros Hi Hh. rewrite py_index_out by lia. done.
  - intros Hi Hj Hw. destruct (Hrow i Hi) as (row & Hr & Hl).
    rewrite py_index_in by lia. rewrite Hr. simpl. rewrite py_index_out by lia. done.
Qed.

Lemma is_mine_index_behaviour_witness :
  ((0 ≤ -1 < 3)%Z → (0 ≤ 1 < 3)%Z →
   Minesweeper.is_mine example_game (-1, 1)%Z
   = Some (bool_decide ((-1, 1)%Z ∈ Minesweeper.mines example_game)))
  ∧ ((- 3 ≤ -1 < 0)%Z →
     Minesweeper.is_mine example_game (-1, 1)%Z
     = Minesweeper.is_mine example_game ((-1 + 3)%Z, 1%Z))
  ∧ ((0 ≤ -1 < 3)%Z → (- 3 ≤ 1 < 0)%Z →
     Minesweeper.is_mine example_game (-1, 1)%Z
     = Minesweeper.is_mine example_game (-1, (1 + 3))%Z)
  ∧ ((-1 < - 3 ∨ 3 ≤ -1)%Z → (0 ≤ 3)%Z → Minesweeper.is_mine example_game (-1, 1)%Z = None)
  ∧ ((0 ≤ -1 < 3)%Z → (1 < - 3 ∨ 3 ≤ 1)%Z → (0 ≤ 3)%Z →
     Minesweeper.is_mine example_game (-1, 1)%Z = None).
Proof.
  apply (is_mine_index_behaviour 3%Z 3%Z 1%Z [0; 1] example_game (-1)%Z 1%Z).
  vm_compute. reflexivity.
Defined.
